(** * rawsocket: the session registry (lib/rawsocketcore.go)

    A shallow embedding of [RawSocketCore]: its constructor, [DialIP],
    [ListenIP], the background reaper [handlePcapSessionClose] and [Close].

    Go objects reached through pointers (capture sessions) live in an explicit
    heap, so that two callers holding the same [*pcapSession] see each other's
    updates.  Every function is a state transformer that also returns the
    sequence of effects it performed, in program order. *)

From stdpp Require Import gmap strings list fin_maps.

Open Scope Z_scope.

(** ** Data *)

(** [net.IP] and [net.HardwareAddr] are byte slices. *)
Abbreviation IP := (list N).
Abbreviation HardwareAddr := (list N).

(** [layers.IPProtocol] is a [uint8]. *)
Abbreviation IPProtocol := N.

(** Addresses of heap objects ([*pcapSession]). *)
Abbreviation ptr := nat.

(** The fields of [net.Interface] the registry reads. *)
Record Interface := mkInterface {
  Index : Z;
  Name : string;
  ifaceHardwareAddr : HardwareAddr
}.

(** Go [error] values.  The registry either forwards a collaborator's error
    or wraps it with [fmt.Errorf]; each wrapping format is one constructor.
    The last four are not [error]s but abnormal terminations of a call:
    the three panics of the Go runtime the registry can run into, and a wait
    that never ends. *)
Inductive Error :=
| External (msg : string)
    (* an error produced by a collaborator *)
| ErrSrcNotLocal (srcIP : IP) (cause : Error)
    (* "provided srcIP %v is not a local IP: %v" *)
| ErrInterfaceNotFound (cause : Error)
    (* "interface not found for IP: %v" *)
| ErrCreateSession (cause : Error)
    (* "failed to create pcap session: %v" *)
| ErrListenIP (cause : Error)
    (* "rawSocketCore.ListenIP: %s" *)
| AddressResolutionTimeout (target : IP)
| PanicCloseOfClosedChannel
| PanicSendOnClosedChannel
| PanicNegativeWaitGroup
| Deadlock.

(** Flow key: local address, remote address (absent for a listening flow,
    which accepts any remote) and protocol. *)
Abbreviation FlowKey := (list N * option (list N) * N)%type.

Record RawIPConn := mkConn {
  connId : nat;                   (* identity of the *RawIPConn object *)
  localIP : IP;
  remoteIP : option IP;
  protocol : IPProtocol;
  dstMAC : option HardwareAddr;   (* next-hop hardware address, fixed at creation *)
  owner : ptr                     (* the session the flow belongs to *)
}.

Record pcapSessionConfig := mkConfig {
  cfgArpRequestTimeout : Z
}.

(** [pcapSessionCloseSig] and [arpCache] of the Go struct are references to
    the registry's own channel and cache; they are shared, not copied, and so
    are not fields here. *)
Record pcapSessionParams := mkParams {
  key : string;
  iface : Interface
}.

Record pcapSession := mkSession {
  params : pcapSessionParams;
  config : pcapSessionConfig;
  rawIPConnMap : gmap FlowKey RawIPConn;
  handleOpen : bool
}.

Record ARPCache := mkCache {
  entries : gmap IP (HardwareAddr * Z);   (* address -> hardware address, expiry *)
  ttl : Z;
  cacheClosed : bool
}.

(** Everything outside the registry object: the session heap, the shared
    resolution cache, the allocator of flow identities and the clock. *)
Record World := mkWorld {
  sessions : gmap ptr pcapSession;
  nextSession : ptr;
  arpCache : ARPCache;
  nextConn : nat;
  now : Z
}.

Inductive Chan := ChanOpen | ChanClosed.

Record RawSocketCore := mkCore {
  pcapSessionMap : gmap string ptr;
  arpCacheTimeout : Z;
  arpRequestTimeout : Z;
  pcapSessionCloseSig : Chan;
  stopChan : Chan;
  wg : nat;
  isClosed : bool
}.

Record State := mkState {
  core : RawSocketCore;
  world : World
}.

(** ** Effects *)

Inductive LogMsg :=
| LogRoute (name : string) (gatewayIP : option IP) (srcIP : IP)
    (* "interface name is ... Gateway IP is ... source ip is ..." *)
| LogWaiting       (* "Raw Socket Core: waiting for go routine to close" *)
| LogRoutineClosed (* "Raw Socket Core: go routine closed" *)
| LogStopped.      (* "Raw socket core stopped." *)

Inductive ChanName := StopChan | CloseSig.

(** What the code below the registry does (capture sessions, resolution
    cache). *)
Inductive SessionEvent :=
| SOpenHandle (name : string)
| SCloseHandle (ps : ptr)
| SRoute (dstIP : IP)
| SResolve (target : IP)
| SArpRequest (target : IP)
| SRegister (ps : ptr) (k : FlowKey)
| SCacheClosed.

(** What the registry itself does, one constructor per statement with an
    effect; [EvSession] embeds what a callee did, [EvReaper] what the
    reaper goroutine did while the caller was running. *)
Inductive Event :=
| EvLog (m : LogMsg)
| EvLock
| EvUnlock
| EvGetLocalIP (dstIP : IP)
| EvFindInterfaceByIP (ip : IP)
| EvNewPcapSession (key : string)
| EvSessionDial (ps : ptr) (srcIP dstIP : IP) (protocol : IPProtocol)
| EvSessionListen (ps : ptr) (ip : IP) (protocol : IPProtocol)
| EvStore (ps : ptr) (k : FlowKey) (conn : nat)
| EvSessionClose (ps : ptr)
| EvCloseChan (c : ChanName)
| EvWgWait
| EvArpCacheClose
| EvSession (e : SessionEvent)
| EvReaper (e : Event).

(** The outcome of running a piece of code: its result (a Go [(value, err)]
    pair), the state it leaves and the effects it performed. *)
Record Out (S E A : Type) := mkOut {
  res : Error + A;
  st : S;
  evs : list E
}.
Arguments mkOut {S E A} _ _ _.
Arguments res {S E A} _.
Arguments st {S E A} _.
Arguments evs {S E A} _.

Definition M (S E A : Type) : Type := S -> Out S E A.

Definition ret {S E A} (a : A) : M S E A :=
  fun s => mkOut (inr a) s [].

Definition fail {S E A} (e : Error) : M S E A :=
  fun s => mkOut (inl e) s [].

Definition bind {S E A B} (m : M S E A) (f : A -> M S E B) : M S E B :=
  fun s =>
    match m s with
    | mkOut (inl e) s1 t1 => mkOut (inl e) s1 t1
    | mkOut (inr a) s1 t1 =>
        match f a s1 with
        | mkOut r s2 t2 => mkOut r s2 (t1 ++ t2)
        end
    end.

Definition emit {S E} (e : E) : M S E unit :=
  fun s => mkOut (inr tt) s [e].

Definition gets {S E A} (f : S -> A) : M S E A :=
  fun s => mkOut (inr (f s)) s [].

Definition modify {S E} (f : S -> S) : M S E unit :=
  fun s => mkOut (inr tt) (f s) [].

(** [if err != nil { return nil, wrap(err) }] *)
Definition orWrap {S E A} (wrap : Error -> Error) (m : M S E A) : M S E A :=
  fun s =>
    match m s with
    | mkOut (inl e) s1 t1 => mkOut (inl (wrap e)) s1 t1
    | mkOut (inr a) s1 t1 => mkOut (inr a) s1 t1
    end.

(** A value or an error computed without touching the state. *)
Definition lift_result {S E A} (r : Error + A) : M S E A :=
  fun s => mkOut r s [].

Declare Scope go_scope.
Delimit Scope go_scope with go.
Notation "'do' x <- m ; k" := (bind m (fun x => k))
  (at level 10, x name, m at level 100, k at level 200) : go_scope.
Notation "'do' ' p <- m ; k" := (bind m (fun x => match x with p => k end))
  (at level 10, p pattern, m at level 100, k at level 200) : go_scope.
Notation "'exec' m ; k" := (bind m (fun _ => k))
  (at level 10, m at level 100, k at level 200) : go_scope.
Open Scope go_scope.

Definition setCore (f : RawSocketCore -> RawSocketCore) (s : State) : State :=
  mkState (f (core s)) (world s).

Definition setWorld (f : World -> World) (s : State) : State :=
  mkState (core s) (f (world s)).

(** Run code of the lower layer from the registry: it sees the world only,
    never the registry object. *)
Definition liftW {A} (m : M World SessionEvent A) : M State Event A :=
  fun s =>
    let o := m (world s) in
    mkOut (res o) (mkState (core s) (st o)) (EvSession <$> evs o).

(** Code of the lower layer that cannot fail (no [error] result). *)
Definition liftW_total (f : World -> World * list SessionEvent) : M State Event unit :=
  fun s =>
    let r := f (world s) in
    mkOut (inr tt) (mkState (core s) r.1) (EvSession <$> r.2).

(** ** Collaborators *)

(** The routing table and the interface list of the host (utility functions
    of the package, backed by the operating system). *)
Class Host := {
  (* GetLocalIP(dstIP): srcIP, iface, gatewayIP, err *)
  GetLocalIP : IP -> Error + (IP * Interface * option IP);
  (* findInterfaceByIP(ip): iface, err *)
  findInterfaceByIP : IP -> Error + Interface
}.

(** What a call of a session's [close] leaves behind: the world, what the
    session did, and whether in the course of it the session sent itself on
    [pcapSessionCloseSig], the channel every session is given at lines 85
    and 130. *)
Record Closed := mkClosed {
  afterClose : World;
  closeEvents : list SessionEvent;
  announced : bool
}.

(** The capture-session layer the registry drives.  The registry's code is
    embedded against this interface, so what is proved of the registry holds
    for every implementation of the layer. *)
Class SessionLayer := {
  (* newPcapSession(params, conf): session, error *)
  newPcapSession : pcapSessionParams -> pcapSessionConfig -> M World SessionEvent ptr;
  (* ps.dialIP(srcIP, dstIP, protocol): conn, error *)
  dialIP : ptr -> IP -> IP -> IPProtocol -> M World SessionEvent RawIPConn;
  (* ps.listenIP(ip, protocol): conn, error *)
  listenIP : ptr -> IP -> IPProtocol -> M World SessionEvent RawIPConn;
  (* ps.close() *)
  close : ptr -> World -> Closed;
  (* conn.getKey() *)
  getKey : RawIPConn -> FlowKey;
  (* arpCache.Close() *)
  ARPCache_Close : World -> World * list SessionEvent
}.

(** The order in which a [range] visits the session map.  Go does not
    specify it and varies it from one loop to the next; all that is known is
    that every entry is visited once. *)
Class MapOrder := {
  rangeSessions : gmap string ptr -> list (string * ptr);
  rangeSessions_perm : forall m, rangeSessions m ≡ₚ map_to_list m
}.

(** ** The registry *)

Definition wrap64 (z : Z) : Z := (z + 2 ^ 63) mod 2 ^ 64 - 2 ^ 63.

(** [time.Duration(n) * time.Second]: an [int64] count of nanoseconds. *)
Definition seconds (n : Z) : Z := wrap64 (wrap64 n * 1000000000).

(** Modelled from the spec: [NewARPCache] (the resolution cache is not in
    rawsocketcore.go).  A cache starts with no entry and the given TTL. *)
Definition NewARPCache (timeout : Z) : ARPCache :=
  mkCache ∅ timeout false.

Definition withArpCache (c : ARPCache) (w : World) : World :=
  mkWorld (sessions w) (nextSession w) c (nextConn w) (now w).

Definition withSessions (f : gmap ptr pcapSession -> gmap ptr pcapSession) (w : World) : World :=
  mkWorld (f (sessions w)) (nextSession w) (arpCache w) (nextConn w) (now w).

Definition withSessionMap (f : gmap string ptr -> gmap string ptr) (c : RawSocketCore) : RawSocketCore :=
  mkCore (f (pcapSessionMap c)) (arpCacheTimeout c) (arpRequestTimeout c)
         (pcapSessionCloseSig c) (stopChan c) (wg c) (isClosed c).

Definition withIsClosed (b : bool) (c : RawSocketCore) : RawSocketCore :=
  mkCore (pcapSessionMap c) (arpCacheTimeout c) (arpRequestTimeout c)
         (pcapSessionCloseSig c) (stopChan c) (wg c) b.

Definition withWg (n : nat) (c : RawSocketCore) : RawSocketCore :=
  mkCore (pcapSessionMap c) (arpCacheTimeout c) (arpRequestTimeout c)
         (pcapSessionCloseSig c) (stopChan c) n (isClosed c).

Definition chanOf (n : ChanName) (c : RawSocketCore) : Chan :=
  match n with StopChan => stopChan c | CloseSig => pcapSessionCloseSig c end.

Definition withChanClosed (n : ChanName) (c : RawSocketCore) : RawSocketCore :=
  match n with
  | StopChan =>
      mkCore (pcapSessionMap c) (arpCacheTimeout c) (arpRequestTimeout c)
             (pcapSessionCloseSig c) ChanClosed (wg c) (isClosed c)
  | CloseSig =>
      mkCore (pcapSessionMap c) (arpCacheTimeout c) (arpRequestTimeout c)
             ChanClosed (stopChan c) (wg c) (isClosed c)
  end.

(** [NewRawSocketCore], run in a process whose world is [w]: the new
    registry has no session, both channels open, and one background
    goroutine (the reaper) accounted for in the wait group. *)
Definition NewRawSocketCore (arpCacheTimeout arpRequestTimeout : Z) (w : World) : State :=
  mkState
    {| pcapSessionMap := ∅;
       arpCacheTimeout := seconds arpCacheTimeout;
       arpRequestTimeout := seconds arpRequestTimeout;
       pcapSessionCloseSig := ChanOpen;
       stopChan := ChanOpen;
       wg := 1;
       isClosed := false |}
    (withArpCache (NewARPCache (seconds arpCacheTimeout)) w).

(** [ps.rawIPConnMap.Store(k, conn)] on the session object at [ps]. *)
Definition Store (ps : ptr) (k : FlowKey) (conn : RawIPConn) (w : World) : World :=
  withSessions
    (alter (fun sess => mkSession (params sess) (config sess)
                                  (<[k := conn]> (rawIPConnMap sess)) (handleOpen sess)) ps)
    w.

Section Registry.

Context {host : Host} {layer : SessionLayer} {order : MapOrder}.

(** *** DialIP, piece by piece *)

(** Lines 52-70: choose the source address and the interface. *)
Definition DialIP_route (srcIP : option IP) (dstIP : IP)
  : M State Event (IP * Interface * option IP) :=
  do '(srcIP, iface, gatewayIP) <-
    match srcIP with
    | None =>
        exec emit (EvGetLocalIP dstIP);
        lift_result (GetLocalIP dstIP)
    | Some srcIP =>
        exec emit (EvFindInterfaceByIP srcIP);
        do iface <- orWrap (ErrSrcNotLocal srcIP) (lift_result (findInterfaceByIP srcIP));
        ret (srcIP, iface, None)
    end;
  exec emit (EvLog (LogRoute (Name iface) gatewayIP srcIP));
  ret (srcIP, iface, gatewayIP).

(** Lines 73-75 (and 119-121): [ps, exists := core.pcapSessionMap[name]]
    under the lock. *)
Definition lookupSession (name : string) : M State Event (option ptr) :=
  exec emit EvLock;
  do found <- gets (fun s => pcapSessionMap (core s) !! name);
  exec emit EvUnlock;
  ret found.

(** Lines 78-90 (and 123-134): build the configuration and parameters and
    call [newPcapSession], with no lock held. *)
Definition constructSession (iface : Interface) : M State Event ptr :=
  do timeout <- gets (fun s => arpRequestTimeout (core s));
  let conf := {| cfgArpRequestTimeout := timeout |} in
  let params := {| key := Name iface; iface := iface |} in
  exec emit (EvNewPcapSession (Name iface));
  liftW (newPcapSession params conf).

(** Lines 95-97 (and 138-140): [core.pcapSessionMap[name] = ps] under the
    lock. *)
Definition insertSession (name : string) (ps : ptr) : M State Event unit :=
  exec emit EvLock;
  exec modify (setCore (withSessionMap <[name := ps]>));
  emit EvUnlock.

(** Lines 100-103: delegate to the session. *)
Definition sessionDial (ps : ptr) (srcIP dstIP : IP) (protocol : IPProtocol)
  : M State Event RawIPConn :=
  exec emit (EvSessionDial ps srcIP dstIP protocol);
  liftW (dialIP ps srcIP dstIP protocol).

(** Line 105: [ps.rawIPConnMap.Store(conn.getKey(), conn)]. *)
Definition storeConn (ps : ptr) (conn : RawIPConn) : M State Event unit :=
  exec emit (EvStore ps (getKey conn) (connId conn));
  modify (setWorld (Store ps (getKey conn) conn)).

(** Lines 45-98: everything [DialIP] does before it delegates; it yields the
    source address and the session it will dial on. *)
Definition DialIP_session (srcIP : option IP) (dstIP : IP) : M State Event (IP * ptr) :=
  do '(srcIP, iface, gatewayIP) <- DialIP_route srcIP dstIP;
  do found <- lookupSession (Name iface);
  match found with
  | Some ps => ret (srcIP, ps)
  | None =>
      do ps <- constructSession iface;
      exec insertSession (Name iface) ps;
      ret (srcIP, ps)
  end.

Definition DialIP (protocol : IPProtocol) (srcIP : option IP) (dstIP : IP)
  : M State Event RawIPConn :=
  do '(srcIP, ps) <- DialIP_session srcIP dstIP;
  do conn <- sessionDial ps srcIP dstIP protocol;
  exec storeConn ps conn;
  ret conn.

(** *** ListenIP *)

(** Lines 111-115: find the interface that owns the address. *)
Definition ListenIP_iface (ip : IP) : M State Event Interface :=
  exec emit (EvFindInterfaceByIP ip);
  orWrap ErrInterfaceNotFound (lift_result (findInterfaceByIP ip)).

(** Lines 111-141: find the interface, then look up or create its session. *)
Definition ListenIP_session (ip : IP) : M State Event ptr :=
  do iface <- ListenIP_iface ip;
  let psKey := Name iface in
  do found <- lookupSession psKey;
  match found with
  | Some ps => ret ps
  | None =>
      do ps <- orWrap ErrCreateSession (constructSession iface);
      exec insertSession psKey ps;
      ret ps
  end.

(** Lines 143-146: delegate to the session. *)
Definition sessionListen (ps : ptr) (ip : IP) (protocol : IPProtocol)
  : M State Event RawIPConn :=
  exec emit (EvSessionListen ps ip protocol);
  orWrap ErrListenIP (liftW (listenIP ps ip protocol)).

Definition ListenIP (ip : IP) (protocol : IPProtocol) : M State Event RawIPConn :=
  do ps <- ListenIP_session ip;
  do conn <- sessionListen ps ip protocol;
  ret conn.

(** *** The background reaper *)

(** What one [select] of the reaper's loop receives. *)
Inductive Signal :=
| SigStop                         (* <-core.stopChan *)
| SigSessionClosed (ps : ptr).    (* ps := <-core.pcapSessionCloseSig *)

(** [delete(core.pcapSessionMap, ps.params.key)] under the lock. *)
Definition reap (ps : ptr) : M State Event unit :=
  exec emit EvLock;
  do sess <- gets (fun s => sessions (world s) !! ps);
  exec match sess with
       | Some sess => modify (setCore (withSessionMap (delete (key (params sess)))))
       | None => ret tt
       end;
  emit EvUnlock.

(** [core.wg.Done()]: lowers the counter; below zero it panics. *)
Definition wgDone : M State Event unit :=
  do n <- gets (fun s => wg (core s));
  match n with
  | O => fail PanicNegativeWaitGroup
  | S n => modify (setCore (withWg n))
  end.

(** [handlePcapSessionClose], run on the signals its [select] receives, in
    order.  It returns (and, deferred, calls [wg.Done]) at the first stop
    signal; with no signal left it is blocked in [select]. *)
Fixpoint handlePcapSessionClose (received : list Signal) : M State Event unit :=
  match received with
  | [] => ret tt
  | SigStop :: _ => wgDone
  | SigSessionClosed ps :: rest =>
      exec reap ps;
      handlePcapSessionClose rest
  end.

(** *** Close *)

(** [close(ch)]: closing a closed channel panics. *)
Definition closeChan (n : ChanName) : M State Event unit :=
  do ch <- gets (fun s => chanOf n (core s));
  match ch with
  | ChanClosed => fail PanicCloseOfClosedChannel
  | ChanOpen =>
      exec emit (EvCloseChan n);
      modify (setCore (withChanClosed n))
  end.

(** [core.wg.Wait()]: returns when the counter is zero.  The one goroutine
    that lowers it is the reaper, once, when it finds [stopChan] closed: with
    the channel still open, or with a counter the reaper's one [Done] does
    not bring to zero, the wait never ends. *)
Definition wgWait : M State Event unit :=
  exec emit EvWgWait;
  do c <- gets core;
  match wg c with
  | O => ret tt
  | S _ =>
      match stopChan c with
      | ChanClosed =>
          exec handlePcapSessionClose [SigStop];
          do n <- gets (fun s => wg (core s));
          match n with
          | O => ret tt
          | S _ => fail Deadlock
          end
      | ChanOpen => fail Deadlock
      end
  end.

(** Lines 172-177: the sessions of the map, collected under the lock in
    the order the [range] visits them. *)
Definition snapshotSessions : M State Event (list ptr) :=
  exec emit EvLock;
  do pcapSessions <- gets (fun s => (rangeSessions (pcapSessionMap (core s))).*2);
  exec emit EvUnlock;
  ret pcapSessions.

(** What another goroutine does while the caller runs: the same code, its
    effects marked as not the caller's. *)
Definition byReaper {A} (m : M State Event A) : M State Event A :=
  fun s =>
    let o := m s in
    mkOut (res o) (st o) (EvReaper <$> evs o).

(** A session sends itself on [pcapSessionCloseSig].  The channel is
    unbuffered (line 33) and its one receiver is the reaper (line 158): on a
    closed channel the send panics; with the reaper gone nothing ever
    receives; otherwise the reaper receives the session and deletes its key
    (lines 159-161).  The delete is made by the reaper while the sender goes
    on; it touches the map only and is over before the reaper returns, so it
    is placed here, right after the send. *)
Definition announce (ps : ptr) : M State Event unit :=
  do c <- gets core;
  match pcapSessionCloseSig c with
  | ChanClosed => fail PanicSendOnClosedChannel
  | ChanOpen =>
      match wg c with
      | O => fail Deadlock
      | S _ => byReaper (reap ps)
      end
  end.

(** [session.close()], telling whether the session announced its closure. *)
Definition sessionClose (session : ptr) : M State Event bool :=
  fun s =>
    let r := close session (world s) in
    mkOut (inr (announced r)) (mkState (core s) (afterClose r))
          (EvSession <$> closeEvents r).

(** Lines 179-181: [session.close()] on each collected session. *)
Fixpoint closeSessions (pcapSessions : list ptr) : M State Event unit :=
  match pcapSessions with
  | [] => ret tt
  | session :: rest =>
      exec emit (EvSessionClose session);
      do sent <- sessionClose session;
      exec (if sent : bool then announce session else ret tt);
      closeSessions rest
  end.

(** Lines 172-192: what [Close] does once it has set the flag. *)
Definition shutdown : M State Event unit :=
  do pcapSessions <- snapshotSessions;
  exec closeSessions pcapSessions;
  exec closeChan StopChan;
  exec emit (EvLog LogWaiting);
  exec wgWait;
  exec emit (EvLog LogRoutineClosed);
  exec closeChan CloseSig;
  exec emit EvArpCacheClose;
  exec liftW_total ARPCache_Close;
  emit (EvLog LogStopped).

Definition Close : M State Event unit :=
  do closed <- gets (fun s => isClosed (core s));
  if closed : bool then ret tt
  else
    exec modify (setCore (withIsClosed true));
    shutdown.

(** *** Concurrent callers

    [DialIP] and [ListenIP] hold [core.mu] only around the map read and
    around the map write.  Between two critical sections another goroutine
    may run.  A caller is therefore a small machine whose transitions are the
    pieces above, each atomic: a critical section, or a call made with no
    lock held. *)

Inductive Call :=
| CallDial (protocol : IPProtocol) (srcIP : option IP) (dstIP : IP)
| CallListen (ip : IP) (protocol : IPProtocol).

(** Where a caller stands, with the local variables that are live there. *)
Inductive Thread :=
| TStart (c : Call)
| TLookup (c : Call) (srcIP : IP) (iface : Interface)
| TConstruct (c : Call) (srcIP : IP) (iface : Interface)
| TInsert (c : Call) (srcIP : IP) (iface : Interface) (ps : ptr)
| TDelegate (c : Call) (srcIP : IP) (ps : ptr)
| TStore (ps : ptr) (conn : RawIPConn)
| TDone (r : Error + RawIPConn).

(** Run one piece; an error ends the call. *)
Definition advance {A} (m : M State Event A) (next : A -> Thread) (s : State)
  : Thread * State * list Event :=
  let o := m s in
  match res o with
  | inl e => (TDone (inl e), st o, evs o)
  | inr a => (next a, st o, evs o)
  end.

Definition step (t : Thread) (s : State) : Thread * State * list Event :=
  match t with
  | TStart (CallDial protocol srcIP dstIP as c) =>
      advance (DialIP_route srcIP dstIP) (fun r => TLookup c r.1.1 r.1.2) s
  | TStart (CallListen ip protocol as c) =>
      advance (ListenIP_iface ip) (fun iface => TLookup c ip iface) s
  | TLookup c srcIP iface =>
      advance (lookupSession (Name iface))
              (fun found => match found with
                            | Some ps => TDelegate c srcIP ps
                            | None => TConstruct c srcIP iface
                            end) s
  | TConstruct (CallDial _ _ _ as c) srcIP iface =>
      advance (constructSession iface) (fun ps => TInsert c srcIP iface ps) s
  | TConstruct (CallListen _ _ as c) srcIP iface =>
      advance (orWrap ErrCreateSession (constructSession iface))
              (fun ps => TInsert c srcIP iface ps) s
  | TInsert c srcIP iface ps =>
      advance (insertSession (Name iface) ps) (fun _ => TDelegate c srcIP ps) s
  | TDelegate (CallDial protocol _ dstIP) srcIP ps =>
      advance (sessionDial ps srcIP dstIP protocol) (fun conn => TStore ps conn) s
  | TDelegate (CallListen ip protocol) _ ps =>
      advance (sessionListen ps ip protocol) (fun conn => TDone (inr conn)) s
  | TStore ps conn =>
      advance (storeConn ps conn) (fun _ => TDone (inr conn)) s
  | TDone r => (TDone r, s, [])
  end.

(** One caller running alone for [n] transitions. *)
Fixpoint steps (n : nat) (t : Thread) (s : State) : Thread * State * list Event :=
  match n with
  | O => (t, s, [])
  | S n =>
      let '(t1, s1, e1) := step t s in
      let '(t2, s2, e2) := steps n t1 s1 in
      (t2, s2, e1 ++ e2)
  end.

(** Several callers; [schedule] names, transition by transition, the caller
    that runs next. *)
Fixpoint interleave (schedule : list nat) (threads : list Thread) (s : State)
  : list Thread * State * list Event :=
  match schedule with
  | [] => (threads, s, [])
  | i :: schedule =>
      match threads !! i with
      | None => interleave schedule threads s
      | Some t =>
          let '(t1, s1, e1) := step t s in
          let '(ts, s2, e2) := interleave schedule (<[i := t1]> threads) s1 in
          (ts, s2, e1 ++ e2)
      end
  end.

End Registry.

(** ** The capture-session layer, from its specification *)

(** The network as the capture layer meets it. *)
Class Network := {
  (* opening a capture handle on an interface: [None] when it opens *)
  openLive : Interface -> option Error;
  (* the hardware address that answers a resolution request for an address
     within the request timeout, if any *)
  arpReply : IP -> option HardwareAddr
}.

Definition withNextSession (n : ptr) (w : World) : World :=
  mkWorld (sessions w) n (arpCache w) (nextConn w) (now w).

Definition withNextConn (n : nat) (w : World) : World :=
  mkWorld (sessions w) (nextSession w) (arpCache w) n (now w).

Definition withEntries (f : gmap IP (HardwareAddr * Z) -> gmap IP (HardwareAddr * Z))
    (w : World) : World :=
  withArpCache (mkCache (f (entries (arpCache w))) (ttl (arpCache w))
                        (cacheClosed (arpCache w))) w.

Section SpecLayer.

Context {host : Host} {net : Network}.

(** Modelled from the spec: [newPcapSession] (pcapsession.go is not among the
    sources).  A session owns one capture handle for its interface; when the
    handle cannot be opened the cause is returned and no session exists. *)
Definition spec_newPcapSession (params : pcapSessionParams) (conf : pcapSessionConfig)
  : M World SessionEvent ptr :=
  exec emit (SOpenHandle (key params));
  match openLive (iface params) with
  | Some e => fail e
  | None =>
      do ps <- gets nextSession;
      exec modify (withSessions <[ps := mkSession params conf ∅ true]>);
      exec modify (withNextSession (S ps));
      ret ps
  end.

(** Modelled from the spec: the resolution cache's [resolve], for one caller
    at a time (no resolution of another caller is pending).  An unexpired
    entry answers with no traffic; otherwise a request is sent, and a reply
    is stored with the cache's TTL while silence is a timeout. *)
Definition resolve (target : IP) : M World SessionEvent HardwareAddr :=
  exec emit (SResolve target);
  do hit <- gets (fun w => match entries (arpCache w) !! target with
                           | Some (mac, expiry) =>
                               if bool_decide (now w < expiry)%Z then Some mac else None
                           | None => None
                           end);
  match hit with
  | Some mac => ret mac
  | None =>
      exec emit (SArpRequest target);
      match arpReply target with
      | Some mac =>
          exec modify (fun w => withEntries <[target := (mac, now w + ttl (arpCache w))%Z]> w);
          ret mac
      | None => fail (AddressResolutionTimeout target)
      end
  end.

(** The gateway the route collaborator gives for a destination, if any. *)
Definition gatewayFor (dstIP : IP) : option IP :=
  match GetLocalIP dstIP with
  | inr (_, _, Some gatewayIP) => Some gatewayIP
  | _ => None
  end.

(** Modelled from the spec: the session's [dialIP].  The next hop is the
    gateway when the route collaborator supplies one for the destination, the
    destination itself otherwise; its hardware address is resolved through
    the cache; the flow is keyed by source, destination and protocol.  The
    registry passes the session no gateway (only the two addresses and the
    protocol), so the session asks the route collaborator itself. *)
Definition spec_dialIP (ps : ptr) (srcIP dstIP : IP) (protocol : IPProtocol)
  : M World SessionEvent RawIPConn :=
  exec emit (SRoute dstIP);
  let nextHop := match gatewayFor dstIP with
                 | Some gatewayIP => gatewayIP
                 | None => dstIP
                 end in
  do mac <- resolve nextHop;
  do id <- gets nextConn;
  exec modify (withNextConn (S id));
  ret (mkConn id srcIP (Some dstIP) protocol (Some mac) ps).

(** Modelled from the spec: [getKey], the flow key of the glossary. *)
Definition spec_getKey (conn : RawIPConn) : FlowKey :=
  (localIP conn, remoteIP conn, protocol conn).

(** Modelled from the spec: the session's [listenIP].  The flow is keyed by
    the local address, any remote and the protocol, and the session registers
    it. *)
Definition spec_listenIP (ps : ptr) (ip : IP) (protocol : IPProtocol)
  : M World SessionEvent RawIPConn :=
  do id <- gets nextConn;
  exec modify (withNextConn (S id));
  let conn := mkConn id ip None protocol None ps in
  exec emit (SRegister ps (spec_getKey conn));
  exec modify (Store ps (spec_getKey conn) conn);
  ret conn.

(** Modelled from the spec: the session's [close].  Idempotent; the first
    call releases the handle, invalidates every flow the session owns and
    emits the session's one closed-event to the registry; a later call does
    nothing. *)
Definition spec_close (ps : ptr) (w : World) : Closed :=
  match sessions w !! ps with
  | Some sess =>
      if handleOpen sess
      then mkClosed
             (withSessions <[ps := mkSession (params sess) (config sess) ∅ false]> w)
             [SCloseHandle ps] true
      else mkClosed w [] false
  | None => mkClosed w [] false
  end.

(** Modelled from the spec: the cache's [Close], which clears its state. *)
Definition spec_ARPCache_Close (w : World) : World * list SessionEvent :=
  (withArpCache (mkCache ∅ (ttl (arpCache w)) true) w, [SCacheClosed]).

Definition specLayer : SessionLayer := {|
  newPcapSession := spec_newPcapSession;
  dialIP := spec_dialIP;
  listenIP := spec_listenIP;
  close := spec_close;
  getKey := spec_getKey;
  ARPCache_Close := spec_ARPCache_Close
|}.

End SpecLayer.

(** ** A small network to run the code on

    One interface [en0] with address 192.168.1.10 on 192.168.1.0/24 and the
    gateway 192.168.1.1.  Hosts of the subnet are reached directly, all
    others through the gateway. *)
Module Example.

Definition en0 : Interface := mkInterface 1 "en0" [2; 0; 0; 0; 0; 10]%N.
Definition localAddr : IP := [192; 168; 1; 10]%N.
Definition gateway : IP := [192; 168; 1; 1]%N.
Definition neighbour : IP := [192; 168; 1; 20]%N.
Definition remote : IP := [8; 8; 8; 8]%N.
Definition foreign : IP := [10; 0; 0; 7]%N.
Definition gatewayMAC : HardwareAddr := [2; 0; 0; 0; 0; 1]%N.
Definition neighbourMAC : HardwareAddr := [2; 0; 0; 0; 0; 20]%N.
Definition icmp : IPProtocol := 1%N.

Definition onSubnet (ip : IP) : bool :=
  bool_decide (take 3 ip = [192; 168; 1]%N).

Definition host : Host := {|
  GetLocalIP dstIP :=
    if bool_decide (length dstIP = 4%nat) then
      if onSubnet dstIP then inr (localAddr, en0, None)
      else inr (localAddr, en0, Some gateway)
    else inl (External "no route to host");
  findInterfaceByIP ip :=
    if bool_decide (ip = localAddr) then inr en0
    else inl (External "no interface found")
|}.

(** Capture handles open; the gateway and the neighbour answer requests. *)
Definition net : Network := {|
  openLive _ := None;
  arpReply ip :=
    if bool_decide (ip = gateway) then Some gatewayMAC
    else if bool_decide (ip = neighbour) then Some neighbourMAC
    else None
|}.

(** The same network on a host where no capture handle can be opened. *)
Definition netNoCapture : Network := {|
  openLive _ := Some (External "permission denied");
  arpReply := @arpReply net
|}.

Definition layer : SessionLayer := @specLayer host net.
Definition layerNoCapture : SessionLayer := @specLayer host netNoCapture.

(** The order of the map's own listing taken as the order of [range], and
    the reverse order. *)
Definition order : MapOrder := {|
  rangeSessions := map_to_list;
  rangeSessions_perm := fun m => Permutation_refl (map_to_list m)
|}.
Definition orderReversed : MapOrder := {|
  rangeSessions := fun m => reverse (map_to_list m);
  rangeSessions_perm := fun m => reverse_Permutation (map_to_list m)
|}.

(** A process that has created nothing yet. *)
Definition boot : World := mkWorld ∅ 0 (NewARPCache 0) 0 0.

(** A fresh registry: 60 s cache timeout, 5 s request timeout. *)
Definition fresh : State := NewRawSocketCore 60 5 boot.

(** The registry after one dial to the remote host: one session, one flow. *)
Definition busy : State := st (@DialIP host layer icmp None remote fresh).

(** The connections of a first and of a second dial to the remote host. *)
Definition conn0 : RawIPConn :=
  mkConn 0 localAddr (Some remote) icmp (Some gatewayMAC) 0.
Definition conn1 : RawIPConn :=
  mkConn 1 localAddr (Some remote) icmp (Some gatewayMAC) 0.

(** The session of [busy]. *)
Definition busySession : pcapSession :=
  mkSession {| key := "en0"; iface := en0 |}
            {| cfgArpRequestTimeout := 5000000000 |}
            {[ (localAddr, Some remote, icmp) := conn0 ]} true.

(** The fresh registry after [Close]. *)
Definition closedCore : State := st (@Close layer order fresh).

(** Two callers dialling through the same interface on the fresh registry,
    taking turns transition by transition, and the same two one after the
    other. *)
Definition callers : list Thread :=
  [TStart (CallDial icmp None remote); TStart (CallDial icmp None neighbour)].
Definition alternating : list nat := [0; 1; 0; 1; 0; 1; 0; 1; 0; 1; 0; 1]%nat.
Definition oneByOne : list nat := [0; 0; 0; 0; 0; 0; 1; 1; 1; 1; 1; 1]%nat.

(** A host of the subnet that answers no resolution request, and an
    address that is no address at all. *)
Definition silent : IP := [192; 168; 1; 99]%N.
Definition malformed : IP := [1; 2; 3]%N.

(** The same host with a second interface, and a registry on it with a
    listening flow on each interface. *)
Definition en1 : Interface := mkInterface 2 "en1" [2; 0; 0; 0; 1; 10]%N.
Definition localAddr1 : IP := [10; 1; 0; 10]%N.
Definition hostTwo : Host := {|
  GetLocalIP := @GetLocalIP host;
  findInterfaceByIP ip :=
    if bool_decide (ip = localAddr1) then inr en1 else @findInterfaceByIP host ip
|}.
Definition listening : State :=
  st (@ListenIP hostTwo layer localAddr1 icmp
        (st (@ListenIP hostTwo layer localAddr icmp fresh))).

(** The same host with another gateway on its default route. *)
Definition otherGateway : IP := [192; 168; 1; 254]%N.
Definition hostOtherGateway : Host := {|
  GetLocalIP dstIP :=
    if bool_decide (length dstIP = 4%nat) then
      if onSubnet dstIP then inr (localAddr, en0, None)
      else inr (localAddr, en0, Some otherGateway)
    else inl (External "no route to host");
  findInterfaceByIP := @findInterfaceByIP host
|}.

End Example.

(** ** Reading traces *)

(** The caller's own effects: a trace without what its callees and the
    reaper did. *)
Fixpoint callerTrace (t : list Event) : list Event :=
  match t with
  | [] => []
  | EvSession _ :: t => callerTrace t
  | EvReaper _ :: t => callerTrace t
  | e :: t => e :: callerTrace t
  end.

(** What the reaper did in the course of a trace. *)
Definition reaperTrace (t : list Event) : list Event :=
  omap (fun e => match e with EvReaper e => Some e | _ => None end) t.

(** The addresses whose hardware address was asked of the resolution cache. *)
Definition resolved (t : list Event) : list IP :=
  omap (fun e => match e with EvSession (SResolve target) => Some target | _ => None end) t.

(** The interfaces for which a session was constructed. *)
Definition constructed (t : list Event) : list string :=
  omap (fun e => match e with EvNewPcapSession name => Some name | _ => None end) t.

(** The interfaces on which a capture handle was opened. *)
Definition opened (t : list Event) : list string :=
  omap (fun e => match e with EvSession (SOpenHandle name) => Some name | _ => None end) t.

(** The same outcome with the final state transformed. *)
Definition mapSt {S E A} (f : S -> S) (o : Out S E A) : Out S E A :=
  mkOut (res o) (f (st o)) (evs o).

(** Code that leaves the [isClosed] flag as it found it. *)
Definition keepsFlag {A} (m : M State Event A) : Prop :=
  forall s, isClosed (core (st (m s))) = isClosed (core s).

(** No event of a trace is a [Store] on a flow table. *)
Definition noStore (t : list Event) : Prop :=
  Forall (fun ev => forall p k c, ev <> EvStore p k c) t.

(** A trace without its log lines. *)
Fixpoint withoutLogs (t : list Event) : list Event :=
  match t with
  | [] => []
  | EvLog _ :: t => withoutLogs t
  | e :: t => e :: withoutLogs t
  end.

(** The discipline of [core.mu] read off a trace: the lock is taken only
    when free, released only when held, free at the end, and while it is
    held nothing happens but its release (the map access between the two
    leaves no event).  [held] tells whether the lock is held before the
    trace. *)
Fixpoint lockDiscipline (held : bool) (t : list Event) : bool :=
  match t with
  | [] => negb held
  | EvLock :: t => if held then false else lockDiscipline true t
  | EvUnlock :: t => if held then lockDiscipline false t else false
  | _ :: t => if held then false else lockDiscipline false t
  end.

(** A registry in service: not closed, both channels open, the reaper
    running. *)
Definition inService (c : RawSocketCore) : Prop :=
  isClosed c = false /\ stopChan c = ChanOpen /\ pcapSessionCloseSig c = ChanOpen
  /\ wg c = 1%nat.

(** Either nothing, or one new entry under a name the map did not hold. *)
Definition oneInsert (c c' : RawSocketCore) : Prop :=
  c' = c
  \/ exists name ps,
       pcapSessionMap c !! name = None /\ c' = withSessionMap <[name := ps]> c.


(** The calls of a session's [listenIP] in a trace, with their arguments. *)
Definition listened (t : list Event) : list (ptr * IP * IPProtocol) :=
  omap (fun e => match e with
                 | EvSessionListen ps ip protocol => Some (ps, ip, protocol)
                 | _ => None
                 end) t.

(** Code whose trace, started with the lock free, keeps the discipline. *)
Definition disciplined {A} (m : M State Event A) : Prop :=
  forall s, lockDiscipline false (evs (m s)) = true.

(** A map without the entries under a list of keys. *)
Definition deleteAll (keys : list string) (m : gmap string ptr) : gmap string ptr :=
  foldl (fun m k => delete k m) m keys.

Section RegistryUse.

Context {host : Host} {layer : SessionLayer} {order : MapOrder}.

(** The world after [close] has been called on each session of a list, in
    order. *)
Definition closeAll (l : list ptr) (w : World) : World :=
  foldl (fun w ps => afterClose (close ps w)) w l.

(** The sessions of a list that announce their closure when [close] is
    called on each in order, starting in a given world. *)
Fixpoint announcing (l : list ptr) (w : World) : list ptr :=
  match l with
  | [] => []
  | ps :: rest =>
      (if announced (close ps w) then [ps] else [])
      ++ announcing rest (afterClose (close ps w))
  end.

(** The keys under which the reaper deletes for those announcements:
    [ps.params.key] of each announcing session, read when it is received. *)
Fixpoint announcedKeys (l : list ptr) (w : World) : list string :=
  match l with
  | [] => []
  | ps :: rest =>
      (if announced (close ps w)
       then match sessions (afterClose (close ps w)) !! ps with
            | Some sess => [key (params sess)]
            | None => []
            end
       else [])
      ++ announcedKeys rest (afterClose (close ps w))
  end.


(** What can happen to a registry in service, one call after the other:
    a dial, a listen, or the reaper receiving a session's closure. *)
Inductive Op :=
| OpDial (protocol : IPProtocol) (srcIP : option IP) (dstIP : IP)
| OpListen (ip : IP) (protocol : IPProtocol)
| OpSessionClosed (ps : ptr).

Definition runOp (s : State) (op : Op) : State :=
  match op with
  | OpDial protocol srcIP dstIP => st (DialIP protocol srcIP dstIP s)
  | OpListen ip protocol => st (ListenIP ip protocol s)
  | OpSessionClosed ps => st (handlePcapSessionClose [SigSessionClosed ps] s)
  end.

Definition runOps (ops : list Op) (s : State) : State :=
  foldl runOp s ops.

(** The reaper having handled the closure of each session of a list, in
    order. *)
Definition reapAll (closed : list ptr) (s : State) : State :=
  foldl (fun s ps => st (reap ps s)) s closed.

(** The keys under which the reaper deletes for a list of closed sessions:
    [ps.params.key] of each session object. *)
Definition reapedKeys (w : World) (closed : list ptr) : list string :=
  omap (fun ps => (fun sess => key (params sess)) <$> sessions w !! ps) closed.

End RegistryUse.

(** * Properties *)

(** ** The monad *)

Section MonadFacts.

Context {S E : Type}.

Lemma bind_ok {A B} (m : M S E A) (f : A -> M S E B) s a :
  res (m s) = inr a ->
  bind m f s = mkOut (res (f a (st (m s)))) (st (f a (st (m s))))
                     (evs (m s) ++ evs (f a (st (m s)))).
Proof.
  intros H. unfold bind. destruct (m s) as [r s1 t1]. simpl in *. subst r.
  now destruct (f a s1).
Qed.

Lemma bind_err {A B} (m : M S E A) (f : A -> M S E B) s e :
  res (m s) = inl e ->
  bind m f s = mkOut (inl e) (st (m s)) (evs (m s)).
Proof.
  intros H. unfold bind. destruct (m s) as [r s1 t1]. simpl in *. now subst r.
Qed.

Lemma bind_eq {A B} (m : M S E A) (f : A -> M S E B) s a s1 t1 :
  m s = mkOut (inr a) s1 t1 ->
  bind m f s = mkOut (res (f a s1)) (st (f a s1)) (t1 ++ evs (f a s1)).
Proof. intros H. unfold bind. rewrite H. now destruct (f a s1). Qed.

Lemma bind_emit {B} (e : E) (k : M S E B) s :
  bind (emit e) (fun _ => k) s = mkOut (res (k s)) (st (k s)) (e :: evs (k s)).
Proof. unfold bind, emit. now destruct (k s). Qed.

Lemma bind_gets {A B} (g : S -> A) (f : A -> M S E B) s :
  bind (gets g) f s = f (g s) s.
Proof. unfold bind, gets. now destruct (f (g s) s). Qed.

Lemma bind_modify {B} (g : S -> S) (k : M S E B) s :
  bind (modify g) (fun _ => k) s = k (g s).
Proof. unfold bind, modify. now destruct (k (g s)). Qed.

Lemma bind_ret {A B} (a : A) (f : A -> M S E B) s :
  bind (ret a) f s = f a s.
Proof. unfold bind, ret. now destruct (f a s). Qed.

Lemma out_eta {A} (o : Out S E A) : mkOut (res o) (st o) (evs o) = o.
Proof. now destruct o. Qed.

End MonadFacts.

(** Unfold the pieces of the registry down to outcomes. *)
Ltac go_unfold :=
  unfold DialIP, DialIP_session, DialIP_route, ListenIP, ListenIP_session,
    ListenIP_iface, lookupSession, constructSession, insertSession,
    sessionDial, sessionListen, storeConn,
    bind, ret, fail, emit, gets, modify, orWrap, lift_result, liftW, mapSt;
  simpl.

(** Case analysis on the outcome of a call into the session layer. *)
Ltac layer_call c :=
  let r := fresh "r" in let w := fresh "w" in let t := fresh "t" in
  destruct c as [[r|r] w t]; simpl.

(** A trace all of whose events satisfy a property decided by their
    constructor. *)
Ltac trace_free :=
  repeat first
    [ apply Forall_nil_2
    | apply Forall_cons_2; [ intros; discriminate | ]
    | apply Forall_app_2
    | apply Forall_fmap; apply Forall_true; intros; discriminate ].

(** ** The registry, over any host and any session layer *)

Section RegistryFacts.

Context {host : Host} {layer : SessionLayer} {order : MapOrder}.

Lemma callerTrace_app (t1 t2 : list Event) :
  callerTrace (t1 ++ t2) = callerTrace t1 ++ callerTrace t2.
Proof.
  induction t1 as [|e t1 IH]; [reflexivity|].
  destruct e; simpl; now rewrite ?IH.
Qed.

Lemma callerTrace_session (l : list SessionEvent) :
  callerTrace (EvSession <$> l) = [].
Proof. induction l as [|e l IH]; [reflexivity | exact IH]. Qed.

Lemma callerTrace_reaper (l : list Event) :
  callerTrace (EvReaper <$> l) = [].
Proof. induction l as [|e l IH]; [reflexivity | exact IH]. Qed.

(** *** Source address given but not local *)

(** C9. When [DialIP] is given a source address that [findInterfaceByIP]
    does not find on any local interface, it returns the "not a local IP"
    error wrapping the lookup's error, leaves the registry and the world as
    they were (no session, no flow) and has done nothing but the lookup.
    And whenever a source address is given, whatever the outcome, [DialIP]
    never calls [GetLocalIP]; without a source address, calling it is the
    first thing [DialIP] does. *)
Theorem DialIP_source_not_local (protocol : IPProtocol) (srcIP dstIP : IP) (s : State) :
  (forall e, findInterfaceByIP srcIP = inl e ->
     DialIP protocol (Some srcIP) dstIP s
     = mkOut (inl (ErrSrcNotLocal srcIP e)) s [EvFindInterfaceByIP srcIP])
  /\ (forall d, EvGetLocalIP d ∉ evs (DialIP protocol (Some srcIP) dstIP s))
  /\ (evs (DialIP protocol None dstIP s) !! 0%nat = Some (EvGetLocalIP dstIP)).
Proof.
  split; [|split].
  - intros e He. go_unfold. rewrite He. reflexivity.
  - intros d Hin.
    assert (H : Forall (fun ev => forall d, ev <> EvGetLocalIP d)
                       (evs (DialIP protocol (Some srcIP) dstIP s))).
    { go_unfold.
      destruct (findInterfaceByIP srcIP) as [e|ifc]; simpl; [trace_free|].
      destruct (pcapSessionMap (core s) !! Name ifc) as [ps|]; simpl.
      - layer_call (dialIP ps srcIP dstIP protocol (world s)); trace_free.
      - layer_call (newPcapSession {| key := Name ifc; iface := ifc |}
                      {| cfgArpRequestTimeout := arpRequestTimeout (core s) |} (world s));
          [trace_free|].
        layer_call (dialIP r srcIP dstIP protocol w); trace_free. }
    rewrite Forall_forall in H. exact (H _ Hin d eq_refl).
  - go_unfold.
    destruct (GetLocalIP dstIP) as [e|[[src ifc] gw]]; simpl; [reflexivity|].
    destruct (pcapSessionMap (core s) !! Name ifc) as [ps|]; simpl.
    + layer_call (dialIP ps src dstIP protocol (world s)); reflexivity.
    + layer_call (newPcapSession {| key := Name ifc; iface := ifc |}
                    {| cfgArpRequestTimeout := arpRequestTimeout (core s) |} (world s));
        [reflexivity|].
      layer_call (dialIP r src dstIP protocol w); reflexivity.
Qed.

(** *** Session construction fails *)

Lemma DialIP_route_state (srcIP : option IP) (dstIP : IP) (s : State) :
  st (DialIP_route srcIP dstIP s) = s.
Proof.
  go_unfold. destruct srcIP as [a|]; simpl.
  - destruct (findInterfaceByIP a); reflexivity.
  - destruct (GetLocalIP dstIP) as [|[[? ?] ?]]; reflexivity.
Qed.

Lemma lookupSession_eq (name : string) (s : State) :
  lookupSession name s
  = mkOut (inr (pcapSessionMap (core s) !! name)) s [EvLock; EvUnlock].
Proof. reflexivity. Qed.

Lemma insertSession_eq (name : string) (ps : ptr) (s : State) :
  insertSession name ps s
  = mkOut (inr tt) (setCore (withSessionMap <[name := ps]>) s) [EvLock; EvUnlock].
Proof. reflexivity. Qed.

(** The parameters and configuration both callers build for an interface. *)
Lemma constructSession_eq (ifc : Interface) (s : State) :
  constructSession ifc s
  = let o := newPcapSession {| key := Name ifc; iface := ifc |}
                            {| cfgArpRequestTimeout := arpRequestTimeout (core s) |}
                            (world s) in
    mkOut (res o) (mkState (core s) (st o))
          (EvNewPcapSession (Name ifc) :: (EvSession <$> evs o)).
Proof.
  go_unfold.
  now destruct (newPcapSession _ _ (world s)) as [[?|?] ? ?].
Qed.

(** C4. When the interface has no session yet and [newPcapSession] fails,
    [DialIP] returns that error and [ListenIP] returns it wrapped as "failed
    to create pcap session"; in both the registry object, and so its session
    map, is left exactly as it was. *)
Theorem construction_failure_inserts_nothing (s : State) (ifc : Interface) (e : Error) :
  pcapSessionMap (core s) !! Name ifc = None ->
  res (newPcapSession {| key := Name ifc; iface := ifc |}
                      {| cfgArpRequestTimeout := arpRequestTimeout (core s) |}
                      (world s)) = inl e ->
  (forall protocol srcIP dstIP src gatewayIP,
     res (DialIP_route srcIP dstIP s) = inr (src, ifc, gatewayIP) ->
     res (DialIP protocol srcIP dstIP s) = inl e
     /\ core (st (DialIP protocol srcIP dstIP s)) = core s)
  /\ (forall ip protocol,
        findInterfaceByIP ip = inr ifc ->
        res (ListenIP ip protocol s) = inl (ErrCreateSession e)
        /\ core (st (ListenIP ip protocol s)) = core s).
Proof.
  intros Hmiss Hfail.
  assert (Hc : res (constructSession ifc s) = inl e
               /\ core (st (constructSession ifc s)) = core s).
  { rewrite constructSession_eq. simpl. now rewrite Hfail. }
  destruct Hc as [Hc1 Hc2]. split.
  - intros protocol srcIP dstIP src gatewayIP Hroute.
    assert (H : res (DialIP_session srcIP dstIP s) = inl e
                /\ core (st (DialIP_session srcIP dstIP s)) = core s).
    { unfold DialIP_session. rewrite (bind_ok _ _ _ _ Hroute). simpl.
      rewrite DialIP_route_state.
      rewrite (bind_ok (lookupSession (Name ifc)) _ s None)
        by (rewrite lookupSession_eq; simpl; now rewrite Hmiss).
      simpl. rewrite (bind_err _ _ _ _ Hc1). simpl. split; [reflexivity | exact Hc2]. }
    destruct H as [H1 H2]. unfold DialIP. rewrite (bind_err _ _ _ _ H1). simpl.
    split; [reflexivity | exact H2].
  - intros ip protocol Hifc.
    assert (H : res (ListenIP_session ip s) = inl (ErrCreateSession e)
                /\ core (st (ListenIP_session ip s)) = core s).
    { unfold ListenIP_session, ListenIP_iface.
      rewrite (bind_ok _ _ s ifc) by (unfold bind, emit, orWrap, lift_result; now rewrite Hifc).
      assert (Hs : st ((exec emit (EvFindInterfaceByIP ip);
                        orWrap ErrInterfaceNotFound (lift_result (findInterfaceByIP ip))) s) = s).
      { unfold bind, emit, orWrap, lift_result. now rewrite Hifc. }
      rewrite Hs. simpl.
      rewrite (bind_ok (lookupSession (Name ifc)) _ s None)
        by (rewrite lookupSession_eq; simpl; now rewrite Hmiss).
      simpl.
      assert (Hw : orWrap ErrCreateSession (constructSession ifc) s
                   = mkOut (inl (ErrCreateSession e)) (st (constructSession ifc s))
                           (evs (constructSession ifc s))).
      { unfold orWrap. destruct (constructSession ifc s) as [r w t]. simpl in *. now subst r. }
      rewrite (bind_err (orWrap ErrCreateSession (constructSession ifc)) _ s (ErrCreateSession e))
        by now rewrite Hw.
      simpl. rewrite Hw. simpl. split; [reflexivity | exact Hc2]. }
    destruct H as [H1 H2]. unfold ListenIP. rewrite (bind_err _ _ _ _ H1). simpl.
    split; [reflexivity | exact H2].
Qed.

(** *** Close *)

Lemma keepsFlag_bind {A B} (m : M State Event A) (f : A -> M State Event B) :
  keepsFlag m -> (forall a, keepsFlag (f a)) -> keepsFlag (bind m f).
Proof.
  intros Hm Hf s. unfold bind.
  specialize (Hm s). destruct (m s) as [[e|a] s1 t1]; simpl in *; [exact Hm|].
  specialize (Hf a s1). destruct (f a s1) as [r s2 t2]. simpl in *. congruence.
Qed.

Lemma keepsFlag_emit (e : Event) : keepsFlag (emit e).
Proof. intros s. reflexivity. Qed.

Lemma keepsFlag_liftW_total f : keepsFlag (liftW_total f).
Proof. intros s. reflexivity. Qed.

Lemma keepsFlag_closeChan (n : ChanName) : keepsFlag (closeChan n).
Proof.
  intros s. unfold closeChan. rewrite bind_gets.
  destruct (chanOf n (core s)); [|reflexivity].
  rewrite bind_emit. simpl. now destruct n.
Qed.

(** The reaper's handling of one closed session, as an outcome. *)
Lemma reap_eq (ps : ptr) (s : State) :
  reap ps s
  = mkOut (inr tt)
          match sessions (world s) !! ps with
          | Some sess => setCore (withSessionMap (delete (key (params sess)))) s
          | None => s
          end
          [EvLock; EvUnlock].
Proof.
  unfold reap. rewrite bind_emit, bind_gets.
  now destruct (sessions (world s) !! ps).
Qed.

Lemma reap_state (ps : ptr) (s : State) :
  world (st (reap ps s)) = world s
  /\ wg (core (st (reap ps s))) = wg (core s)
  /\ isClosed (core (st (reap ps s))) = isClosed (core s)
  /\ stopChan (core (st (reap ps s))) = stopChan (core s)
  /\ pcapSessionCloseSig (core (st (reap ps s))) = pcapSessionCloseSig (core s)
  /\ pcapSessionMap (core (st (reap ps s)))
     = match sessions (world s) !! ps with
       | Some sess => delete (key (params sess)) (pcapSessionMap (core s))
       | None => pcapSessionMap (core s)
       end.
Proof. rewrite reap_eq. simpl. now destruct (sessions (world s) !! ps). Qed.

Lemma wgDone_eq (s : State) (n : nat) :
  wg (core s) = S n -> wgDone s = mkOut (inr tt) (setCore (withWg n) s) [].
Proof. intros H. unfold wgDone. rewrite bind_gets, H. reflexivity. Qed.

Lemma keepsFlag_wgDone : keepsFlag wgDone.
Proof.
  intros s. unfold wgDone. rewrite bind_gets. now destruct (wg (core s)).
Qed.

Lemma keepsFlag_wgWait : keepsFlag wgWait.
Proof.
  unfold wgWait. apply keepsFlag_bind; [apply keepsFlag_emit|]. intros _.
  apply keepsFlag_bind; [intros s; reflexivity|]. intros c.
  destruct (wg c); [intros s; reflexivity|].
  destruct (stopChan c); [intros s; reflexivity|].
  apply keepsFlag_bind; [apply keepsFlag_wgDone|]. intros _.
  apply keepsFlag_bind; [intros s; reflexivity|]. intros [|k]; intros s; reflexivity.
Qed.

(** A session's announcement received by the running reaper. *)
Lemma announce_eq (ps : ptr) (s : State) (n : nat) :
  pcapSessionCloseSig (core s) = ChanOpen ->
  wg (core s) = S n ->
  announce ps s = mkOut (inr tt) (st (reap ps s)) [EvReaper EvLock; EvReaper EvUnlock].
Proof.
  intros Hsig Hwg. unfold announce. rewrite bind_gets, Hsig, Hwg.
  unfold byReaper. now rewrite reap_eq.
Qed.

Lemma keepsFlag_announce (ps : ptr) : keepsFlag (announce ps).
Proof.
  intros s. unfold announce. rewrite bind_gets.
  destruct (pcapSessionCloseSig (core s)); [|reflexivity].
  destruct (wg (core s)); [reflexivity|].
  unfold byReaper. simpl. apply reap_state.
Qed.

Lemma keepsFlag_closeSessions (l : list ptr) : keepsFlag (closeSessions l).
Proof.
  induction l as [|p l IH]; intros s; [reflexivity|]. simpl.
  apply keepsFlag_bind; [apply keepsFlag_emit|]. intros _.
  apply keepsFlag_bind; [intros s'; reflexivity|]. intros sent.
  apply keepsFlag_bind; [|intros _; exact IH].
  destruct sent; [apply keepsFlag_announce | intros s'; reflexivity].
Qed.

Lemma keepsFlag_shutdown : keepsFlag shutdown.
Proof.
  unfold shutdown.
  apply keepsFlag_bind; [intros s; reflexivity|]. intros l.
  repeat (apply keepsFlag_bind;
          [ first [ apply keepsFlag_closeSessions | apply keepsFlag_closeChan
                  | apply keepsFlag_emit | apply keepsFlag_wgWait
                  | apply keepsFlag_liftW_total ]
          | intros _ ]).
  apply keepsFlag_emit.
Qed.

Lemma Close_when_closed (s : State) :
  isClosed (core s) = true -> Close s = mkOut (inr tt) s [].
Proof. intros H. unfold Close. rewrite bind_gets. now rewrite H. Qed.

Lemma Close_when_open (s : State) :
  isClosed (core s) = false -> Close s = shutdown (setCore (withIsClosed true) s).
Proof. intros H. unfold Close. rewrite bind_gets, H. apply bind_modify. Qed.

Lemma Close_sets_flag (s : State) : isClosed (core (st (Close s))) = true.
Proof.
  destruct (isClosed (core s)) eqn:H.
  - now rewrite Close_when_closed.
  - rewrite (Close_when_open _ H), keepsFlag_shutdown. reflexivity.
Qed.

(** C5. Closing twice: whatever the first call to [Close] did, a second
    call returns normally (no error, no panic, no wait), changes nothing in
    the registry or in the world, and performs no effect at all: no channel
    is closed again, no session is closed again, the cache is not closed
    again. *)
Theorem Close_idempotent (s : State) :
  Close (st (Close s)) = mkOut (inr tt) (st (Close s)) [].
Proof. apply Close_when_closed, Close_sets_flag. Qed.

Lemma deleteAll_app (k1 k2 : list string) (m : gmap string ptr) :
  deleteAll (k1 ++ k2) m = deleteAll k2 (deleteAll k1 m).
Proof. apply foldl_app. Qed.

Lemma deleteAll_lookup (keys : list string) (m : gmap string ptr) (name : string) :
  deleteAll keys m !! name
  = if bool_decide (name ∈ keys) then None else m !! name.
Proof.
  revert m. induction keys as [|k keys IH]; intros m; [reflexivity|].
  change (deleteAll (k :: keys) m) with (deleteAll keys (delete k m)).
  rewrite IH. destruct (decide (name = k)) as [->|Hne].
  - rewrite lookup_delete_eq.
    rewrite (bool_decide_eq_true_2 (k ∈ k :: keys)) by apply list_elem_of_here.
    now destruct (bool_decide _).
  - rewrite lookup_delete_ne by congruence.
    destruct (bool_decide (name ∈ keys)) eqn:Hin.
    + apply bool_decide_eq_true_1 in Hin.
      rewrite bool_decide_eq_true_2; [reflexivity | now apply list_elem_of_further].
    + apply bool_decide_eq_false_1 in Hin.
      rewrite bool_decide_eq_false_2; [reflexivity|].
      intros [?|?]%elem_of_cons; [congruence | contradiction].
Qed.

Lemma withSessionMap_id (c : RawSocketCore) :
  withSessionMap (fun _ => pcapSessionMap c) c = c.
Proof. now destruct c. Qed.

(** Closing the collected sessions while the reaper runs: every session is
    closed, in order, and each one that announces its closure has its key
    deleted by the reaper. *)
Lemma closeSessions_run (l : list ptr) (s : State) (n : nat) :
  pcapSessionCloseSig (core s) = ChanOpen ->
  wg (core s) = S n ->
  res (closeSessions l s) = inr tt
  /\ world (st (closeSessions l s)) = closeAll l (world s)
  /\ core (st (closeSessions l s))
     = withSessionMap
         (fun _ => deleteAll (announcedKeys l (world s)) (pcapSessionMap (core s)))
         (core s)
  /\ callerTrace (evs (closeSessions l s)) = EvSessionClose <$> l.
Proof.
  revert s. induction l as [|ps l IH]; intros s Hsig Hwg.
  - simpl. unfold deleteAll. simpl. now rewrite withSessionMap_id.
  - simpl closeSessions. rewrite bind_emit.
    rewrite (bind_eq (sessionClose ps) _ s (announced (close ps (world s)))
               (mkState (core s) (afterClose (close ps (world s))))
               (EvSession <$> closeEvents (close ps (world s))) eq_refl).
    set (r := close ps (world s)). set (s1 := mkState (core s) (afterClose r)).
    simpl announcedKeys. fold r. unfold closeAll. simpl foldl. fold r.
    fold (closeAll l (afterClose r)).
    destruct (announced r).
    + rewrite (bind_eq _ _ _ _ _ _ (announce_eq ps s1 n Hsig Hwg)).
      destruct (reap_state ps s1) as (Rw & R1 & _ & _ & R4 & Rm).
      destruct (IH (st (reap ps s1))) as (Hr & Hw & Hc & Ht);
        [now rewrite R4 | now rewrite R1 |].
      cbn [res st evs]. rewrite Rw in Hw, Hc. simpl in Hw, Hc.
      repeat split; [exact Hr | exact Hw | |].
      * rewrite Hc. rewrite deleteAll_app. rewrite Rm. simpl.
        rewrite reap_eq. simpl.
        destruct (sessions (afterClose r) !! ps); reflexivity.
      * simpl. rewrite callerTrace_app, callerTrace_session. simpl.
        now rewrite Ht.
    + rewrite bind_ret.
      destruct (IH s1 Hsig Hwg) as (Hr & Hw & Hc & Ht).
      cbn [res st evs]. repeat split; [exact Hr | exact Hw | exact Hc |].
      simpl. rewrite callerTrace_app, callerTrace_session. simpl. now rewrite Ht.
Qed.

Lemma snapshotSessions_eq (s : State) :
  snapshotSessions s
  = mkOut (inr (rangeSessions (pcapSessionMap (core s))).*2) s [EvLock; EvUnlock].
Proof. reflexivity. Qed.

Lemma closeChan_open (n : ChanName) (s : State) :
  chanOf n (core s) = ChanOpen ->
  closeChan n s = mkOut (inr tt) (setCore (withChanClosed n) s) [EvCloseChan n].
Proof. intros H. unfold closeChan. rewrite bind_gets, H. reflexivity. Qed.

Lemma wgWait_stopped (s : State) :
  stopChan (core s) = ChanClosed ->
  wg (core s) = 1%nat ->
  wgWait s = mkOut (inr tt) (setCore (withWg 0) s) [EvWgWait].
Proof.
  intros Hstop Hwg. unfold wgWait. rewrite bind_emit, bind_gets, Hwg, Hstop.
  simpl. rewrite (bind_eq _ _ _ _ _ _ (wgDone_eq s 0 Hwg)).
  rewrite bind_gets. reflexivity.
Qed.

(** [shutdown] on a registry in service, step by step. *)
Lemma shutdown_run (s0 : State) :
  stopChan (core s0) = ChanOpen ->
  pcapSessionCloseSig (core s0) = ChanOpen ->
  wg (core s0) = 1%nat ->
  let l := (rangeSessions (pcapSessionMap (core s0))).*2 in
  let o := closeSessions l s0 in
  res (shutdown s0) = inr tt
  /\ evs (shutdown s0)
     = [EvLock; EvUnlock] ++ evs o
       ++ [EvCloseChan StopChan; EvLog LogWaiting; EvWgWait; EvLog LogRoutineClosed;
           EvCloseChan CloseSig; EvArpCacheClose]
       ++ (EvSession <$> (ARPCache_Close (world (st o))).2) ++ [EvLog LogStopped]
  /\ core (st (shutdown s0))
     = withChanClosed CloseSig (withWg 0 (withChanClosed StopChan (core (st o))))
  /\ world (st (shutdown s0)) = (ARPCache_Close (world (st o))).1.
Proof.
  intros Hstop Hsig Hwg l o. subst o.
  unfold shutdown.
  rewrite (bind_eq _ _ _ _ _ _ (snapshotSessions_eq s0)). fold l.
  destruct (closeSessions_run l s0 0 Hsig Hwg) as (Hr & _ & Hc & _).
  destruct (closeSessions l s0) as [r s1 t1] eqn:E. cbn [res st evs] in *. subst r.
  rewrite (bind_eq _ _ _ _ _ _ E).
  assert (H1 : chanOf StopChan (core s1) = ChanOpen) by (simpl; now rewrite Hc).
  rewrite (bind_eq _ _ _ _ _ _ (closeChan_open StopChan s1 H1)).
  rewrite bind_emit.
  set (s2 := setCore (withChanClosed StopChan) s1).
  assert (H2 : wg (core s2) = 1%nat) by (simpl; now rewrite Hc).
  rewrite (bind_eq _ _ _ _ _ _ (wgWait_stopped s2 eq_refl H2)).
  rewrite bind_emit.
  set (s3 := setCore (withWg 0) s2).
  assert (H3 : chanOf CloseSig (core s3) = ChanOpen) by (simpl; now rewrite Hc).
  rewrite (bind_eq _ _ _ _ _ _ (closeChan_open CloseSig s3 H3)).
  rewrite bind_emit.
  rewrite (bind_eq (liftW_total ARPCache_Close) _ _ tt _ _ eq_refl).
  simpl. done.
Qed.

(** C6. [Close] on a registry in service (not closed, both channels open,
    the reaper running) returns normally, and what the caller itself does
    is, in this order and nothing else: lock, unlock (the sessions of the
    map are collected in between, each once, in the order of the [range]),
    [close] on each collected session, close [stopChan], wait, close
    [pcapSessionCloseSig], close the resolution cache, the last log line.
    Everything the reaper does during the call it does before the wait
    returns.  The closes are real: the world [Close] leaves is the one in
    which [close] has been run on every collected session and then the
    cache's [Close]; and the registry is left with the flag set, both
    channels closed and the wait group at zero. *)
Theorem Close_order (s : State) :
  inService (core s) ->
  let l := (rangeSessions (pcapSessionMap (core s))).*2 in
  l ≡ₚ (map_to_list (pcapSessionMap (core s))).*2
  /\ res (Close s) = inr tt
  /\ callerTrace (evs (Close s))
     = [EvLock; EvUnlock]
       ++ (EvSessionClose <$> l)
       ++ [EvCloseChan StopChan; EvLog LogWaiting; EvWgWait; EvLog LogRoutineClosed;
           EvCloseChan CloseSig; EvArpCacheClose; EvLog LogStopped]
  /\ (exists closing,
        callerTrace closing = EvSessionClose <$> l
        /\ evs (Close s)
           = [EvLock; EvUnlock] ++ closing
             ++ [EvCloseChan StopChan; EvLog LogWaiting; EvWgWait; EvLog LogRoutineClosed;
                 EvCloseChan CloseSig; EvArpCacheClose]
             ++ (EvSession <$> (ARPCache_Close (closeAll l (world s))).2)
             ++ [EvLog LogStopped])
  /\ world (st (Close s)) = (ARPCache_Close (closeAll l (world s))).1
  /\ isClosed (core (st (Close s))) = true
  /\ stopChan (core (st (Close s))) = ChanClosed
  /\ pcapSessionCloseSig (core (st (Close s))) = ChanClosed
  /\ wg (core (st (Close s))) = 0%nat.
Proof.
  intros (Hflag & Hstop & Hsig & Hwg) l.
  split; [apply fmap_Permutation, rangeSessions_perm|].
  rewrite (Close_when_open _ Hflag).
  set (s0 := setCore (withIsClosed true) s).
  destruct (shutdown_run s0 Hstop Hsig Hwg) as (Hr & He & Hc & Hw).
  destruct (closeSessions_run l s0 0 Hsig Hwg) as (_ & Hcw & Hcc & Hct).
  change (rangeSessions (pcapSessionMap (core s0))) with
    (rangeSessions (pcapSessionMap (core s))) in *. fold l in He, Hc, Hw.
  change (world s0) with (world s) in *.
  rewrite Hcw in He, Hw. rewrite Hcc in Hc.
  split; [exact Hr|]. split; [|split; [|split; [exact Hw|]]].
  - rewrite He. rewrite !callerTrace_app, Hct, callerTrace_session.
    reflexivity.
  - exists (evs (closeSessions l s0)). split; [exact Hct | exact He].
  - rewrite Hc. done.
Qed.

(** *** After the session is chosen *)

Lemma DialIP_session_noStore (srcIP : option IP) (dstIP : IP) (s : State) :
  noStore (evs (DialIP_session srcIP dstIP s)).
Proof.
  unfold noStore. go_unfold. destruct srcIP as [a|]; simpl.
  - destruct (findInterfaceByIP a) as [e|ifc]; simpl; [trace_free|].
    destruct (pcapSessionMap (core s) !! Name ifc); simpl; [trace_free|].
    layer_call (newPcapSession {| key := Name ifc; iface := ifc |}
                  {| cfgArpRequestTimeout := arpRequestTimeout (core s) |} (world s));
      trace_free.
  - destruct (GetLocalIP dstIP) as [e|[[src ifc] gw]]; simpl; [trace_free|].
    destruct (pcapSessionMap (core s) !! Name ifc); simpl; [trace_free|].
    layer_call (newPcapSession {| key := Name ifc; iface := ifc |}
                  {| cfgArpRequestTimeout := arpRequestTimeout (core s) |} (world s));
      trace_free.
Qed.

Lemma ListenIP_session_noStore (ip : IP) (s : State) :
  noStore (evs (ListenIP_session ip s)).
Proof.
  unfold noStore. go_unfold.
  destruct (findInterfaceByIP ip) as [e|ifc]; simpl; [trace_free|].
  destruct (pcapSessionMap (core s) !! Name ifc); simpl; [trace_free|].
  layer_call (newPcapSession {| key := Name ifc; iface := ifc |}
                {| cfgArpRequestTimeout := arpRequestTimeout (core s) |} (world s));
    trace_free.
Qed.

(** [DialIP] from the point where it holds a session: lines 100-107. *)
Lemma DialIP_after_session (protocol : IPProtocol) (srcIP : option IP) (dstIP : IP)
    (s : State) (src : IP) (ps : ptr) :
  res (DialIP_session srcIP dstIP s) = inr (src, ps) ->
  let o1 := DialIP_session srcIP dstIP s in
  let o2 := dialIP ps src dstIP protocol (world (st o1)) in
  DialIP protocol srcIP dstIP s
  = match res o2 with
    | inl e =>
        mkOut (inl e) (mkState (core (st o1)) (st o2))
              (evs o1 ++ EvSessionDial ps src dstIP protocol :: (EvSession <$> evs o2))
    | inr conn =>
        mkOut (inr conn)
              (mkState (core (st o1)) (Store ps (getKey conn) conn (st o2)))
              (evs o1 ++ (EvSessionDial ps src dstIP protocol :: (EvSession <$> evs o2))
                     ++ [EvStore ps (getKey conn) (connId conn)])
    end.
Proof.
  intros H o1 o2. unfold DialIP. rewrite (bind_ok _ _ _ _ H). fold o1.
  unfold sessionDial, storeConn, bind, emit, liftW, modify, ret, setWorld. simpl.
  fold o2. destruct o2 as [[e|conn] w t]; simpl; rewrite ?app_nil_r; reflexivity.
Qed.

(** [ListenIP] from the point where it holds a session: lines 143-148. *)
Lemma ListenIP_after_session (ip : IP) (protocol : IPProtocol) (s : State) (ps : ptr) :
  res (ListenIP_session ip s) = inr ps ->
  let o1 := ListenIP_session ip s in
  let o2 := listenIP ps ip protocol (world (st o1)) in
  ListenIP ip protocol s
  = mkOut (match res o2 with inl e => inl (ErrListenIP e) | inr conn => inr conn end)
          (mkState (core (st o1)) (st o2))
          (evs o1 ++ EvSessionListen ps ip protocol :: (EvSession <$> evs o2)).
Proof.
  intros H o1 o2. unfold ListenIP. rewrite (bind_ok _ _ _ _ H). fold o1.
  unfold sessionListen, bind, emit, orWrap, liftW, ret. simpl.
  fold o2. destruct o2 as [[e|conn] w t]; simpl; rewrite ?app_nil_r; reflexivity.
Qed.

Lemma noStore_not_elem (t : list Event) (p : ptr) (k : FlowKey) (c : nat) :
  noStore t -> EvStore p k c ∉ t.
Proof.
  intros H Hin. unfold noStore in H. rewrite Forall_forall in H.
  exact (H _ Hin p k c eq_refl).
Qed.

Lemma Store_lookup (ps : ptr) (k : FlowKey) (conn : RawIPConn) (w : World) (sess : pcapSession) :
  sessions w !! ps = Some sess ->
  sessions (Store ps k conn w) !! ps
  = Some (mkSession (params sess) (config sess) (<[k := conn]> (rawIPConnMap sess))
                    (handleOpen sess)).
Proof.
  intros H. unfold Store, withSessions. simpl.
  rewrite lookup_alter_eq, H. reflexivity.
Qed.

(** C8. Once [DialIP] holds a session [ps]: if the session's [dialIP]
    returns a connection, [DialIP] returns that connection, and what it did
    last before returning is the [Store] into the flow table of [ps] under
    the connection's key, so that the table of [ps] maps the key to the
    connection; if the session's [dialIP] fails, [DialIP] returns that error,
    leaves the world as the session left it and has performed no [Store]. *)
Theorem DialIP_registers_flow (protocol : IPProtocol) (srcIP : option IP) (dstIP : IP)
    (s : State) (src : IP) (ps : ptr) :
  res (DialIP_session srcIP dstIP s) = inr (src, ps) ->
  let o1 := DialIP_session srcIP dstIP s in
  let o2 := dialIP ps src dstIP protocol (world (st o1)) in
  let o := DialIP protocol srcIP dstIP s in
  (forall conn, res o2 = inr conn ->
     res o = inr conn
     /\ world (st o) = Store ps (getKey conn) conn (st o2)
     /\ last (evs o) = Some (EvStore ps (getKey conn) (connId conn))
     /\ (forall sess, sessions (st o2) !! ps = Some sess ->
           exists sess', sessions (world (st o)) !! ps = Some sess'
                         /\ rawIPConnMap sess' !! getKey conn = Some conn))
  /\ (forall e, res o2 = inl e ->
        res o = inl e
        /\ world (st o) = st o2
        /\ forall p k c, EvStore p k c ∉ evs o).
Proof.
  intros H o1 o2 o. subst o. rewrite (DialIP_after_session protocol _ _ _ _ _ H).
  fold o1. fold o2. split.
  - intros conn Hc. rewrite Hc. simpl. repeat split.
    + rewrite app_comm_cons, app_assoc. apply last_snoc.
    + intros sess Hs. eexists. split; [apply (Store_lookup _ _ _ _ _ Hs)|].
      simpl. apply lookup_insert_eq.
  - intros e He. rewrite He. simpl. repeat split.
    intros p k c. apply noStore_not_elem. unfold noStore.
    apply Forall_app_2; [apply DialIP_session_noStore|]. trace_free.
Qed.

(** C10. [ListenIP] changes nothing after the session's [listenIP] has
    returned: its final world is the one [listenIP] left, the registry object
    is as it was when the session was chosen, and its trace holds no [Store].
    [DialIP], by contrast, ends with a [Store] that is a plain map insert:
    the session's table afterwards is the table [dialIP] left with the key
    bound to the new connection, so a connection bound to that key before
    (an earlier dial of the same source, destination and protocol) is no
    longer the one the key leads to, and every other key is untouched. *)
Theorem ListenIP_no_store_DialIP_overwrites (s : State) :
  (forall ip protocol ps,
     res (ListenIP_session ip s) = inr ps ->
     let o1 := ListenIP_session ip s in
     let o2 := listenIP ps ip protocol (world (st o1)) in
     st (ListenIP ip protocol s) = mkState (core (st o1)) (st o2)
     /\ forall p k c, EvStore p k c ∉ evs (ListenIP ip protocol s))
  /\ (forall protocol srcIP dstIP src ps conn sess,
        res (DialIP_session srcIP dstIP s) = inr (src, ps) ->
        let o1 := DialIP_session srcIP dstIP s in
        let o2 := dialIP ps src dstIP protocol (world (st o1)) in
        res o2 = inr conn ->
        sessions (st o2) !! ps = Some sess ->
        In (EvStore ps (getKey conn) (connId conn)) (evs (DialIP protocol srcIP dstIP s))
        /\ sessions (world (st (DialIP protocol srcIP dstIP s))) !! ps
           = Some (mkSession (params sess) (config sess)
                             (<[getKey conn := conn]> (rawIPConnMap sess)) (handleOpen sess))
        /\ forall old, rawIPConnMap sess !! getKey conn = Some old ->
             <[getKey conn := conn]> (rawIPConnMap sess) !! getKey conn = Some conn
             /\ forall k, k <> getKey conn ->
                  <[getKey conn := conn]> (rawIPConnMap sess) !! k = rawIPConnMap sess !! k).
Proof.
  split.
  - intros ip protocol ps H o1 o2.
    rewrite (ListenIP_after_session ip protocol s ps H). fold o1. fold o2. simpl.
    split; [reflexivity|].
    intros p k c. apply noStore_not_elem. unfold noStore.
    apply Forall_app_2; [apply ListenIP_session_noStore|]. trace_free.
  - intros protocol srcIP dstIP src ps conn sess H o1 o2 Hc Hs.
    rewrite (DialIP_after_session protocol _ _ _ _ _ H). fold o1. fold o2.
    rewrite Hc. simpl. split; [|split; [apply (Store_lookup _ _ _ _ _ Hs)|]].
    + apply in_or_app; right. right. apply in_or_app; right. now left.
    + intros old _. split; [apply lookup_insert_eq|].
      intros k Hk. now apply lookup_insert_ne.
Qed.

(** *** The reaper *)

(** A session that announces its closure is removed from the map by its
    key, whichever session the map holds under that key. *)
Lemma reap_removes (ps : ptr) (sess : pcapSession) (s : State) :
  sessions (world s) !! ps = Some sess ->
  pcapSessionMap (core (st (reap ps s))) !! key (params sess) = None
  /\ world (st (reap ps s)) = world s.
Proof.
  intros H. unfold reap. rewrite bind_emit, bind_gets, H. simpl.
  split; [apply lookup_delete_eq | reflexivity].
Qed.

(** The reaper returns at the stop signal and ignores what follows it. *)
Lemma handlePcapSessionClose_stop (rest : list Signal) (s : State) :
  handlePcapSessionClose (SigStop :: rest) s = wgDone s.
Proof. reflexivity. Qed.

(** *** The closed flag *)

(** C2, as the code has it.  Neither [DialIP] nor [ListenIP] reads
    [isClosed]: on a registry whose flag is set to any value they return the
    same result, perform the same effects and leave the same state (the flag
    apart) as on the registry with the flag as it was.  In particular a
    closed registry still hands out connections and still constructs and
    inserts sessions; the flag only makes later calls of [Close] do
    nothing. *)
Theorem DialIP_ListenIP_ignore_isClosed (b : bool) (s : State) :
  (forall protocol srcIP dstIP,
     DialIP protocol srcIP dstIP (setCore (withIsClosed b) s)
     = mapSt (setCore (withIsClosed b)) (DialIP protocol srcIP dstIP s))
  /\ (forall ip protocol,
        ListenIP ip protocol (setCore (withIsClosed b) s)
        = mapSt (setCore (withIsClosed b)) (ListenIP ip protocol s)).
Proof.
  split.
  - intros protocol srcIP dstIP. go_unfold. destruct srcIP as [a|]; simpl.
    + destruct (findInterfaceByIP a) as [e|ifc]; simpl; [reflexivity|].
      destruct (pcapSessionMap (core s) !! Name ifc) as [ps|]; simpl.
      * layer_call (dialIP ps a dstIP protocol (world s)); reflexivity.
      * layer_call (newPcapSession {| key := Name ifc; iface := ifc |}
                      {| cfgArpRequestTimeout := arpRequestTimeout (core s) |} (world s));
          [reflexivity|].
        layer_call (dialIP r a dstIP protocol w); reflexivity.
    + destruct (GetLocalIP dstIP) as [e|[[src ifc] gw]]; simpl; [reflexivity|].
      destruct (pcapSessionMap (core s) !! Name ifc) as [ps|]; simpl.
      * layer_call (dialIP ps src dstIP protocol (world s)); reflexivity.
      * layer_call (newPcapSession {| key := Name ifc; iface := ifc |}
                      {| cfgArpRequestTimeout := arpRequestTimeout (core s) |} (world s));
          [reflexivity|].
        layer_call (dialIP r src dstIP protocol w); reflexivity.
  - intros ip protocol. go_unfold.
    destruct (findInterfaceByIP ip) as [e|ifc]; simpl; [reflexivity|].
    destruct (pcapSessionMap (core s) !! Name ifc) as [ps|]; simpl.
    + layer_call (listenIP ps ip protocol (world s)); reflexivity.
    + layer_call (newPcapSession {| key := Name ifc; iface := ifc |}
                    {| cfgArpRequestTimeout := arpRequestTimeout (core s) |} (world s));
        [reflexivity|].
      layer_call (listenIP r ip protocol w); reflexivity.
Qed.

(** *** One caller at a time *)

(** The insert of lines 95-97 and 138-140 is unconditional: whatever the map
    held under the name, the new session replaces it. *)
Lemma insertSession_overwrites (name : string) (ps : ptr) (s : State) :
  pcapSessionMap (core (st (insertSession name ps s))) !! name = Some ps.
Proof. rewrite insertSession_eq. simpl. apply lookup_insert_eq. Qed.

(** A caller that runs alone from start to end is [DialIP]: the transitions
    of the concurrent model are the sequential function cut at the points
    where the lock is not held. *)
Lemma steps_DialIP (protocol : IPProtocol) (srcIP : option IP) (dstIP : IP) (s : State) :
  steps 6 (TStart (CallDial protocol srcIP dstIP)) s
  = let o := DialIP protocol srcIP dstIP s in (TDone (res o), st o, evs o).
Proof.
  unfold steps, step, advance. go_unfold. destruct srcIP as [a|]; simpl.
  - destruct (findInterfaceByIP a) as [e|ifc]; simpl; [reflexivity|].
    destruct (pcapSessionMap (core s) !! Name ifc) as [ps|]; simpl.
    + layer_call (dialIP ps a dstIP protocol (world s));
        rewrite ?app_nil_r; reflexivity.
    + layer_call (newPcapSession {| key := Name ifc; iface := ifc |}
                    {| cfgArpRequestTimeout := arpRequestTimeout (core s) |} (world s));
        [rewrite ?app_nil_r; reflexivity|].
      layer_call (dialIP r a dstIP protocol w);
        rewrite <- ?app_assoc; simpl; rewrite ?app_nil_r; reflexivity.
  - destruct (GetLocalIP dstIP) as [e|[[src ifc] gw]]; simpl; [reflexivity|].
    destruct (pcapSessionMap (core s) !! Name ifc) as [ps|]; simpl.
    + layer_call (dialIP ps src dstIP protocol (world s));
        rewrite ?app_nil_r; reflexivity.
    + layer_call (newPcapSession {| key := Name ifc; iface := ifc |}
                    {| cfgArpRequestTimeout := arpRequestTimeout (core s) |} (world s));
        [rewrite ?app_nil_r; reflexivity|].
      layer_call (dialIP r src dstIP protocol w);
        rewrite <- ?app_assoc; simpl; rewrite ?app_nil_r; reflexivity.
Qed.

Lemma steps_ListenIP (ip : IP) (protocol : IPProtocol) (s : State) :
  steps 5 (TStart (CallListen ip protocol)) s
  = let o := ListenIP ip protocol s in (TDone (res o), st o, evs o).
Proof.
  unfold steps, step, advance. go_unfold.
  destruct (findInterfaceByIP ip) as [e|ifc]; simpl; [reflexivity|].
  destruct (pcapSessionMap (core s) !! Name ifc) as [ps|]; simpl.
  - layer_call (listenIP ps ip protocol (world s));
      rewrite ?app_nil_r; reflexivity.
  - layer_call (newPcapSession {| key := Name ifc; iface := ifc |}
                  {| cfgArpRequestTimeout := arpRequestTimeout (core s) |} (world s));
      [rewrite ?app_nil_r; reflexivity|].
    layer_call (listenIP r ip protocol w);
      rewrite <- ?app_assoc; simpl; rewrite ?app_nil_r; reflexivity.
Qed.

End RegistryFacts.

(** ** The registry over the specified session layer *)

Ltac spec_unfold :=
  unfold spec_newPcapSession, spec_dialIP, spec_listenIP, resolve,
    bind, ret, fail, emit, gets, modify; simpl.

Section SpecFacts.

Context {host : Host} {net : Network}.

Lemma resolved_app (t1 t2 : list Event) :
  resolved (t1 ++ t2) = resolved t1 ++ resolved t2.
Proof. apply omap_app. Qed.

(** Choosing the session resolves nothing: the cache is first asked by the
    session's [dialIP]. *)
Lemma DialIP_session_resolves_nothing (srcIP : option IP) (dstIP : IP) (s : State) :
  resolved (evs (DialIP_session (layer := specLayer) srcIP dstIP s)) = []
  /\ arpCache (world (st (DialIP_session (layer := specLayer) srcIP dstIP s)))
     = arpCache (world s).
Proof.
  go_unfold. spec_unfold. destruct srcIP as [a|]; simpl.
  - destruct (findInterfaceByIP a) as [e|ifc]; simpl; [done|].
    destruct (pcapSessionMap (core s) !! Name ifc); simpl; [done|].
    destruct (openLive ifc); done.
  - destruct (GetLocalIP dstIP) as [e|[[src ifc] gw]]; simpl; [done|].
    destruct (pcapSessionMap (core s) !! Name ifc); simpl; [done|].
    destruct (openLive ifc); done.
Qed.

(** The session's [dialIP] asks the cache for exactly one address, the next
    hop; a connection it returns carries the hardware address the cache then
    holds for that address. *)
Lemma spec_dialIP_next_hop (ps : ptr) (srcIP dstIP : IP) (protocol : IPProtocol) (w : World) :
  let nextHop := match gatewayFor dstIP with Some g => g | None => dstIP end in
  let o := spec_dialIP ps srcIP dstIP protocol w in
  resolved (EvSession <$> evs o) = [nextHop]
  /\ forall conn, res o = inr conn ->
       exists mac expiry,
         dstMAC conn = Some mac
         /\ entries (arpCache (st o)) !! nextHop = Some (mac, expiry).
Proof.
  intros nextHop. spec_unfold. fold nextHop.
  destruct (entries (arpCache w) !! nextHop) as [[mac expiry]|] eqn:Hhit; simpl.
  - destruct (bool_decide (now w < expiry)); simpl.
    + split; [reflexivity|]. intros conn [= <-]. simpl. eauto.
    + destruct (arpReply nextHop) as [mac'|]; simpl.
      * split; [reflexivity|]. intros conn [= <-]. simpl.
        eexists _, _. split; [reflexivity|]. apply lookup_insert_eq.
      * split; [reflexivity|]. intros conn [=].
  - destruct (arpReply nextHop) as [mac'|]; simpl.
    + split; [reflexivity|]. intros conn [= <-]. simpl.
      eexists _, _. split; [reflexivity|]. apply lookup_insert_eq.
    + split; [reflexivity|]. intros conn [=].
Qed.

(** C1.  Over the specified session layer: when [DialIP] is called without
    a source address, the route resolver answers with a gateway and the
    registry gets as far as the session's [dialIP], the one address whose
    hardware address is asked of the resolution cache during the call is
    the gateway; when the route resolver answers without a gateway it is the
    destination.  A connection returned carries the hardware address the
    cache holds for that next hop. *)
Theorem DialIP_resolves_next_hop (protocol : IPProtocol) (dstIP : IP) (s : State)
    (srcIP : IP) (ifc : Interface) (gatewayIP : option IP) (src : IP) (ps : ptr) :
  GetLocalIP dstIP = inr (srcIP, ifc, gatewayIP) ->
  res (DialIP_session (layer := specLayer) None dstIP s) = inr (src, ps) ->
  let nextHop := match gatewayIP with Some g => g | None => dstIP end in
  let o := DialIP (layer := specLayer) protocol None dstIP s in
  resolved (evs o) = [nextHop]
  /\ forall conn, res o = inr conn ->
       exists mac expiry,
         dstMAC conn = Some mac
         /\ entries (arpCache (world (st o))) !! nextHop = Some (mac, expiry).
Proof.
  intros Hroute Hsess nextHop o. subst o.
  assert (Hgw : match gatewayFor dstIP with Some g => g | None => dstIP end = nextHop).
  { unfold gatewayFor. rewrite Hroute. now destruct gatewayIP. }
  rewrite (DialIP_after_session protocol _ _ _ _ _ Hsess).
  destruct (DialIP_session_resolves_nothing None dstIP s) as [Hnone _].
  set (o1 := DialIP_session None dstIP s) in *.
  destruct (spec_dialIP_next_hop ps src dstIP protocol (world (st o1))) as [Hres Hmac].
  rewrite Hgw in Hres, Hmac.
  change (dialIP ps src dstIP protocol (world (st o1)))
    with (spec_dialIP ps src dstIP protocol (world (st o1))).
  set (o2 := spec_dialIP ps src dstIP protocol (world (st o1))) in *.
  destruct (res o2) as [e|conn] eqn:Hr; simpl.
  - split; [|intros conn [=]].
    rewrite resolved_app, Hnone. simpl. exact Hres.
  - split.
    + rewrite resolved_app, Hnone. simpl. fold (resolved ((EvSession <$> evs o2) ++ [EvStore ps (spec_getKey conn) (connId conn)])).
      rewrite resolved_app, Hres. reflexivity.
    + intros conn' [= <-]. exact (Hmac conn eq_refl).
Qed.



End SpecFacts.

(** ** On the example network *)

Section Runs.

Import Example.

(** The closed flag does not stop [DialIP] or [ListenIP]: on the fresh
    registry after [Close], a dial returns a connection, and it has
    constructed a session, opened a capture handle and inserted the session
    under "en0", where the map was empty; a listen succeeds as well. *)
Lemma closed_core_still_dials :
  isClosed (core closedCore) = true
  /\ pcapSessionMap (core closedCore) !! "en0" = None
  /\ res (@DialIP host layer icmp None remote closedCore) = inr conn0
  /\ pcapSessionMap (core (st (@DialIP host layer icmp None remote closedCore))) !! "en0"
     = Some 0%nat
  /\ opened (evs (@DialIP host layer icmp None remote closedCore)) = ["en0"]
  /\ res (@ListenIP host layer localAddr icmp closedCore)
     = inr (mkConn 0 localAddr None icmp None 0)
  /\ constructed (evs (@ListenIP host layer localAddr icmp closedCore)) = ["en0"].
Proof. vm_compute. repeat split. Qed.

(** C3, on the code.  Two callers for the same interface on a fresh
    registry, alternating: both find the map empty, both construct a session
    and open a capture handle, both insert.  The second insert replaces the
    first; the first caller's session, handle open and holding the first
    caller's flow, is no longer in the map, and a later [Close] does not
    close it. *)
Lemma race_opens_two_handles :
  let r := @interleave host layer alternating callers fresh in
  r.1.1 = [TDone (inr conn0);
           TDone (inr (mkConn 1 localAddr (Some neighbour) icmp (Some neighbourMAC) 1))]
  /\ constructed r.2 = ["en0"; "en0"]
  /\ opened r.2 = ["en0"; "en0"]
  /\ pcapSessionMap (core r.1.2) !! "en0" = Some 1%nat
  /\ handleOpen <$> sessions (world r.1.2) !! 0%nat = Some true
  /\ handleOpen <$> sessions (world r.1.2) !! 1%nat = Some true
  /\ handleOpen <$> sessions (world (st (@Close layer order r.1.2))) !! 0%nat = Some true
  /\ handleOpen <$> sessions (world (st (@Close layer order r.1.2))) !! 1%nat = Some false.
Proof. vm_compute. repeat split. Qed.

(** The same two callers one after the other share one session. *)
Lemma callers_in_turn_share_session :
  let r := @interleave host layer oneByOne callers fresh in
  constructed r.2 = ["en0"]
  /\ opened r.2 = ["en0"]
  /\ pcapSessionMap (core r.1.2) !! "en0" = Some 0%nat
  /\ size (sessions (world r.1.2)) = 1%nat.
Proof. vm_compute. repeat split. Qed.

(** Dialling the remote host resolves the gateway. *)
Lemma DialIP_resolves_next_hop_witness :
  resolved (evs (@DialIP host layer icmp None remote fresh)) = [gateway]
  /\ forall conn, res (@DialIP host layer icmp None remote fresh) = inr conn ->
       exists mac expiry,
         dstMAC conn = Some mac
         /\ entries (arpCache (world (st (@DialIP host layer icmp None remote fresh))))
            !! gateway = Some (mac, expiry).
Proof.
  refine (@DialIP_resolves_next_hop host net icmp remote fresh localAddr en0
            (Some gateway) localAddr 0%nat _ _); vm_compute; reflexivity.
Defined.

(** Dialling a neighbour resolves the neighbour itself. *)
Lemma DialIP_neighbour_resolved_directly :
  resolved (evs (@DialIP host layer icmp None neighbour fresh)) = [neighbour].
Proof. vm_compute. reflexivity. Qed.

(** Where no capture handle can be opened, dial and listen fail and the
    registry is as it was. *)
Lemma construction_failure_inserts_nothing_witness :
  (res (@DialIP host layerNoCapture icmp None remote fresh)
   = inl (External "permission denied")
   /\ core (st (@DialIP host layerNoCapture icmp None remote fresh)) = core fresh)
  /\ (res (@ListenIP host layerNoCapture localAddr icmp fresh)
      = inl (ErrCreateSession (External "permission denied"))
      /\ core (st (@ListenIP host layerNoCapture localAddr icmp fresh)) = core fresh).
Proof.
  destruct (@construction_failure_inserts_nothing host layerNoCapture fresh en0
              (External "permission denied"))
    as [Hdial Hlisten]; [vm_compute; reflexivity | vm_compute; reflexivity |].
  split.
  - apply (Hdial icmp None remote localAddr (Some gateway)). vm_compute. reflexivity.
  - apply (Hlisten localAddr icmp). vm_compute. reflexivity.
Defined.

(** [Close] on the registry with a session on each of two interfaces,
    under a [range] that visits the map in reverse. *)
Lemma Close_order_witness :
  res (@Close layer orderReversed listening) = inr tt
  /\ callerTrace (evs (@Close layer orderReversed listening))
     = [EvLock; EvUnlock; EvSessionClose 0; EvSessionClose 1;
        EvCloseChan StopChan; EvLog LogWaiting; EvWgWait; EvLog LogRoutineClosed;
        EvCloseChan CloseSig; EvArpCacheClose; EvLog LogStopped]
  /\ world (st (@Close layer orderReversed listening))
     = (@ARPCache_Close layer (@closeAll layer [0; 1]%nat (world listening))).1
  /\ wg (core (st (@Close layer orderReversed listening))) = 0%nat.
Proof.
  destruct (@Close_order layer orderReversed listening)
    as (_ & Hr & Ht & _ & Hw & _ & _ & _ & Hwg);
    [repeat split; vm_compute; reflexivity|].
  split; [exact Hr|]. split; [exact Ht|]. split; [exact Hw | exact Hwg].
Defined.

(** The same registry under the other order: the sessions are closed the
    other way round, and in both cases the reaper has deleted both entries
    when [Close] returns. *)
Lemma listening_shutdown_trace :
  callerTrace (evs (@Close layer order listening))
  = [EvLock; EvUnlock; EvSessionClose 1; EvSessionClose 0;
     EvCloseChan StopChan; EvLog LogWaiting; EvWgWait; EvLog LogRoutineClosed;
     EvCloseChan CloseSig; EvArpCacheClose; EvLog LogStopped]
  /\ reaperTrace (evs (@Close layer order listening))
     = [EvLock; EvUnlock; EvLock; EvUnlock]
  /\ pcapSessionMap (core (st (@Close layer order listening))) = ∅
  /\ pcapSessionMap (core (st (@Close layer orderReversed listening))) = ∅.
Proof. vm_compute. repeat split. Qed.


Lemma DialIP_registers_flow_witness :
  res (@DialIP host layer icmp None remote fresh) = inr conn0
  /\ last (evs (@DialIP host layer icmp None remote fresh))
     = Some (EvStore 0 (localAddr, Some remote, icmp) 0)
  /\ (rawIPConnMap <$> sessions (world (st (@DialIP host layer icmp None remote fresh))) !! 0%nat)
     = Some {[ (localAddr, Some remote, icmp) := conn0 ]}.
Proof.
  destruct (@DialIP_registers_flow host layer icmp None remote fresh localAddr 0%nat)
    as [Hok _]; [vm_compute; reflexivity|].
  destruct (Hok conn0) as (Hres & _ & Hlast & _); [vm_compute; reflexivity|].
  split; [exact Hres|]. split; [exact Hlast|]. vm_compute. reflexivity.
Defined.

Lemma DialIP_source_not_local_witness :
  @DialIP host layer icmp (Some foreign) remote fresh
  = mkOut (inl (ErrSrcNotLocal foreign (External "no interface found"))) fresh
          [EvFindInterfaceByIP foreign].
Proof.
  apply (proj1 (@DialIP_source_not_local host layer icmp foreign remote fresh)).
  vm_compute. reflexivity.
Defined.

(** A second dial of the same source, destination and protocol takes the
    first connection's place in the session's table. *)
Lemma ListenIP_no_store_DialIP_overwrites_witness :
  rawIPConnMap busySession !! (localAddr, Some remote, icmp) = Some conn0
  /\ sessions (world (st (@DialIP host layer icmp None remote busy))) !! 0%nat
     = Some (mkSession (params busySession) (config busySession)
                       (<[(localAddr, Some remote, icmp) := conn1]> (rawIPConnMap busySession))
                       (handleOpen busySession))
  /\ <[(localAddr, Some remote, icmp) := conn1]> (rawIPConnMap busySession)
     !! (localAddr, Some remote, icmp) = Some conn1.
Proof.
  destruct (proj2 (@ListenIP_no_store_DialIP_overwrites host layer busy)
              icmp None remote localAddr 0%nat conn1 busySession)
    as (_ & Hsess & Hover); [vm_compute; reflexivity ..|].
  split; [vm_compute; reflexivity|]. split; [exact Hsess|].
  exact (proj1 (Hover conn0 ltac:(vm_compute; reflexivity))).
Defined.

End Runs.

(** * Further properties of the registry *)

(** ** Durations *)

Lemma seconds_in_range (n : Z) :
  -9223372036 <= n <= 9223372036 -> seconds n = n * 1000000000.
Proof.
  intros H. unfold seconds, wrap64.
  rewrite (Z.mod_small (n + 2 ^ 63)) by lia.
  replace (n + 2 ^ 63 - 2 ^ 63) with n by lia.
  rewrite Z.mod_small by lia. lia.
Qed.

Lemma seconds_overflow (n : Z) :
  9223372037 <= n <= 18446744073 -> seconds n = n * 1000000000 - 2 ^ 64.
Proof.
  intros H. unfold seconds, wrap64.
  rewrite (Z.mod_small (n + 2 ^ 63)) by lia.
  replace (n + 2 ^ 63 - 2 ^ 63) with n by lia.
  replace (n * 1000000000 + 2 ^ 63)
    with (n * 1000000000 - 2 ^ 63 + 1 * 2 ^ 64) by lia.
  rewrite Z_mod_plus_full, Z.mod_small by lia. lia.
Qed.

(** X1. [NewRawSocketCore] turns its two timeouts, given in seconds, into
    [int64] nanosecond counts by multiplication.  Up to 9223372036 seconds
    the registry and its cache hold exactly that many seconds; from
    9223372037 seconds on (up to 18446744073) the product wraps and the
    stored request timeout is negative. *)
Theorem NewRawSocketCore_timeouts (cacheTimeout requestTimeout : Z) (w : World) :
  (0 <= cacheTimeout <= 9223372036 ->
   0 <= requestTimeout <= 9223372036 ->
   arpCacheTimeout (core (NewRawSocketCore cacheTimeout requestTimeout w))
   = cacheTimeout * 1000000000
   /\ arpRequestTimeout (core (NewRawSocketCore cacheTimeout requestTimeout w))
      = requestTimeout * 1000000000
   /\ ttl (arpCache (world (NewRawSocketCore cacheTimeout requestTimeout w)))
      = cacheTimeout * 1000000000)
  /\ (9223372037 <= requestTimeout <= 18446744073 ->
      arpRequestTimeout (core (NewRawSocketCore cacheTimeout requestTimeout w)) < 0).
Proof.
  split.
  - intros Hc Hr. simpl. rewrite !seconds_in_range by lia. done.
  - intros Hr. simpl. rewrite seconds_overflow by lia. lia.
Qed.

(** ** The lock *)

Lemma lockDiscipline_app (held : bool) (t1 t2 : list Event) :
  lockDiscipline held t1 = true ->
  lockDiscipline held (t1 ++ t2) = lockDiscipline false t2.
Proof.
  revert held. induction t1 as [|e t1 IH]; intros held H.
  - destruct held; [discriminate | reflexivity].
  - destruct e, held; simpl in *; try discriminate; now apply IH.
Qed.

Lemma lockDiscipline_session (t : list SessionEvent) :
  lockDiscipline false (EvSession <$> t) = true.
Proof. induction t as [|e t IH]; [reflexivity | exact IH]. Qed.

Lemma disciplined_bind {A B} (m : M State Event A) (f : A -> M State Event B) :
  disciplined m -> (forall a, disciplined (f a)) -> disciplined (bind m f).
Proof.
  intros Hm Hf s. unfold bind. specialize (Hm s).
  destruct (m s) as [[e|a] s1 t1]; simpl in *; [exact Hm|].
  specialize (Hf a s1). destruct (f a s1) as [r s2 t2]. simpl in *.
  now rewrite (lockDiscipline_app _ _ _ Hm).
Qed.

Lemma disciplined_orWrap {A} (wrap : Error -> Error) (m : M State Event A) :
  disciplined m -> disciplined (orWrap wrap m).
Proof.
  intros Hm s. unfold orWrap. specialize (Hm s).
  now destruct (m s) as [[e|a] s1 t1].
Qed.

Lemma disciplined_liftW {A} (m : M World SessionEvent A) : disciplined (liftW m).
Proof. intros s. apply lockDiscipline_session. Qed.

Lemma disciplined_liftW_total f : disciplined (liftW_total f).
Proof. intros s. apply lockDiscipline_session. Qed.

(** Pieces that emit nothing, or one event that is not a lock operation. *)
Ltac quiet := intros ?; reflexivity.

Lemma lockDiscipline_reaper (t : list Event) :
  lockDiscipline false (EvReaper <$> t) = true.
Proof. induction t as [|e t IH]; [reflexivity | exact IH]. Qed.

Section LockFacts.

Context {host : Host} {layer : SessionLayer} {order : MapOrder}.

Lemma disciplined_DialIP_route srcIP dstIP : disciplined (DialIP_route srcIP dstIP).
Proof.
  intros s. unfold DialIP_route, bind, emit, ret, orWrap, lift_result.
  destruct srcIP as [a|]; simpl.
  - now destruct (findInterfaceByIP a).
  - now destruct (GetLocalIP dstIP) as [|[[? ?] ?]].
Qed.

Lemma disciplined_constructSession ifc : disciplined (constructSession ifc).
Proof.
  intros s. rewrite constructSession_eq. simpl. apply lockDiscipline_session.
Qed.

Lemma disciplined_DialIP protocol srcIP dstIP : disciplined (DialIP protocol srcIP dstIP).
Proof.
  unfold DialIP, DialIP_session.
  apply disciplined_bind.
  - apply disciplined_bind; [apply disciplined_DialIP_route|].
    intros [[src ifc] gw].
    apply disciplined_bind; [quiet|]. intros [ps|]; [quiet|].
    apply disciplined_bind; [apply disciplined_constructSession|].
    intros ps. apply disciplined_bind; [quiet | intros _; quiet].
  - intros [src ps]. apply disciplined_bind.
    + apply disciplined_bind; [quiet | intros _; apply disciplined_liftW].
    + intros conn. apply disciplined_bind; [|intros _; quiet].
      apply disciplined_bind; [quiet | intros _; quiet].
Qed.

Lemma disciplined_ListenIP ip protocol : disciplined (ListenIP ip protocol).
Proof.
  unfold ListenIP, ListenIP_session, ListenIP_iface.
  apply disciplined_bind.
  - apply disciplined_bind.
    + apply disciplined_bind; [quiet|]. intros _.
      apply disciplined_orWrap. quiet.
    + intros ifc. apply disciplined_bind; [quiet|]. intros [ps|]; [quiet|].
      apply disciplined_bind;
        [apply disciplined_orWrap, disciplined_constructSession|].
      intros ps. apply disciplined_bind; [quiet | intros _; quiet].
  - intros ps. apply disciplined_bind; [|intros conn; quiet].
    apply disciplined_bind; [quiet|]. intros _.
    apply disciplined_orWrap, disciplined_liftW.
Qed.

Lemma disciplined_reap ps : disciplined (reap ps).
Proof.
  intros s. unfold reap. rewrite bind_emit, bind_gets.
  now destruct (sessions (world s) !! ps).
Qed.

Lemma disciplined_wgDone : disciplined wgDone.
Proof.
  intros s. unfold wgDone. rewrite bind_gets. now destruct (wg (core s)).
Qed.

Lemma disciplined_handlePcapSessionClose received :
  disciplined (handlePcapSessionClose received).
Proof.
  induction received as [|[|ps] rest IH]; simpl;
    [quiet | apply disciplined_wgDone |].
  apply disciplined_bind; [apply disciplined_reap | intros _; exact IH].
Qed.

Lemma disciplined_announce ps : disciplined (announce ps).
Proof.
  intros s. unfold announce. rewrite bind_gets.
  destruct (pcapSessionCloseSig (core s)); [|reflexivity].
  destruct (wg (core s)); [reflexivity|].
  apply lockDiscipline_reaper.
Qed.

Lemma disciplined_sessionClose ps : disciplined (sessionClose ps).
Proof. intros s. apply lockDiscipline_session. Qed.

Lemma disciplined_closeSessions l : disciplined (closeSessions l).
Proof.
  induction l as [|p l IH]; simpl; [quiet|].
  apply disciplined_bind; [quiet|]. intros _.
  apply disciplined_bind; [apply disciplined_sessionClose|]. intros sent.
  apply disciplined_bind; [|intros _; exact IH].
  destruct sent; [apply disciplined_announce | quiet].
Qed.

Lemma disciplined_closeChan n : disciplined (closeChan n).
Proof.
  intros s. unfold closeChan. rewrite bind_gets.
  now destruct (chanOf n (core s)).
Qed.

Lemma disciplined_wgWait : disciplined wgWait.
Proof.
  unfold wgWait. apply disciplined_bind; [quiet|]. intros _.
  apply disciplined_bind; [quiet|]. intros c.
  destruct (wg c); [quiet|]. destruct (stopChan c); [quiet|].
  apply disciplined_bind; [apply disciplined_wgDone|]. intros _.
  apply disciplined_bind; [quiet|]. intros [|k]; quiet.
Qed.

Lemma disciplined_shutdown : disciplined shutdown.
Proof.
  unfold shutdown.
  apply disciplined_bind; [quiet|]. intros l.
  repeat (apply disciplined_bind;
          [ first [ apply disciplined_closeSessions | apply disciplined_closeChan
                  | apply disciplined_wgWait | apply disciplined_liftW_total
                  | quiet ]
          | intros _ ]).
  quiet.
Qed.

(** X2. Whatever the host and the session layer do, [DialIP], [ListenIP],
    [Close] and the reaper take [core.mu] only when it is free, release it
    before they return, and do nothing while they hold it except read or
    write the session map: no session is constructed, dialled, listened on
    or closed, no channel is closed and nothing is waited for under the
    lock. *)
Theorem lock_held_only_for_map_access :
  (forall protocol srcIP dstIP s,
     lockDiscipline false (evs (DialIP protocol srcIP dstIP s)) = true)
  /\ (forall ip protocol s,
        lockDiscipline false (evs (ListenIP ip protocol s)) = true)
  /\ (forall s, lockDiscipline false (evs (Close s)) = true)
  /\ (forall received s,
        lockDiscipline false (evs (handlePcapSessionClose received s)) = true).
Proof.
  split; [|split; [|split]].
  - intros protocol srcIP dstIP. apply disciplined_DialIP.
  - intros ip protocol. apply disciplined_ListenIP.
  - intros s. destruct (isClosed (core s)) eqn:H.
    + now rewrite Close_when_closed.
    + rewrite (Close_when_open _ H). apply disciplined_shutdown.
  - intros received. apply disciplined_handlePcapSessionClose.
Qed.

End LockFacts.

(** ** What a call changes in the registry *)

Section FrameFacts.

Context {host : Host} {layer : SessionLayer} {order : MapOrder}.

Lemma DialIP_oneInsert protocol srcIP dstIP s :
  oneInsert (core s) (core (st (DialIP protocol srcIP dstIP s))).
Proof.
  unfold oneInsert. go_unfold. destruct srcIP as [a|]; simpl.
  - destruct (findInterfaceByIP a) as [e|ifc]; simpl; [now left|].
    destruct (pcapSessionMap (core s) !! Name ifc) as [ps|] eqn:Hm; simpl.
    + layer_call (dialIP ps a dstIP protocol (world s)); now left.
    + layer_call (newPcapSession {| key := Name ifc; iface := ifc |}
                    {| cfgArpRequestTimeout := arpRequestTimeout (core s) |} (world s));
        [now left|].
      layer_call (dialIP r a dstIP protocol w); right; eauto.
  - destruct (GetLocalIP dstIP) as [e|[[src ifc] gw]]; simpl; [now left|].
    destruct (pcapSessionMap (core s) !! Name ifc) as [ps|] eqn:Hm; simpl.
    + layer_call (dialIP ps src dstIP protocol (world s)); now left.
    + layer_call (newPcapSession {| key := Name ifc; iface := ifc |}
                    {| cfgArpRequestTimeout := arpRequestTimeout (core s) |} (world s));
        [now left|].
      layer_call (dialIP r src dstIP protocol w); right; eauto.
Qed.

Lemma ListenIP_oneInsert ip protocol s :
  oneInsert (core s) (core (st (ListenIP ip protocol s))).
Proof.
  unfold oneInsert. go_unfold.
  destruct (findInterfaceByIP ip) as [e|ifc]; simpl; [now left|].
  destruct (pcapSessionMap (core s) !! Name ifc) as [ps|] eqn:Hm; simpl.
  - layer_call (listenIP ps ip protocol (world s)); now left.
  - layer_call (newPcapSession {| key := Name ifc; iface := ifc |}
                  {| cfgArpRequestTimeout := arpRequestTimeout (core s) |} (world s));
      [now left|].
    layer_call (listenIP r ip protocol w); right; eauto.
Qed.

Lemma oneInsert_keeps (c c' : RawSocketCore) :
  oneInsert c c' ->
  arpCacheTimeout c' = arpCacheTimeout c
  /\ arpRequestTimeout c' = arpRequestTimeout c
  /\ pcapSessionCloseSig c' = pcapSessionCloseSig c
  /\ stopChan c' = stopChan c
  /\ wg c' = wg c
  /\ isClosed c' = isClosed c
  /\ forall name ps, pcapSessionMap c !! name = Some ps ->
                     pcapSessionMap c' !! name = Some ps.
Proof.
  intros [->|(name & ps & Hnone & ->)]; [done|].
  simpl. repeat split. intros name' ps' H.
  rewrite lookup_insert_ne; [exact H | congruence].
Qed.

(** X3. A call of [DialIP] or [ListenIP], whatever its outcome, changes
    nothing in the registry object but the session map, and the map by at
    most one entry, added under a name it did not hold: the timeouts, the
    two channels, the wait group and the closed flag are as before, and
    every session the map held is still there under its name (one caller at
    a time never replaces or removes a session). *)
Theorem calls_only_add_a_session (s : State) :
  (forall protocol srcIP dstIP,
     let c' := core (st (DialIP protocol srcIP dstIP s)) in
     oneInsert (core s) c'
     /\ stopChan c' = stopChan (core s)
     /\ pcapSessionCloseSig c' = pcapSessionCloseSig (core s)
     /\ wg c' = wg (core s)
     /\ isClosed c' = isClosed (core s)
     /\ forall name ps, pcapSessionMap (core s) !! name = Some ps ->
                        pcapSessionMap c' !! name = Some ps)
  /\ (forall ip protocol,
        let c' := core (st (ListenIP ip protocol s)) in
        oneInsert (core s) c'
        /\ stopChan c' = stopChan (core s)
        /\ pcapSessionCloseSig c' = pcapSessionCloseSig (core s)
        /\ wg c' = wg (core s)
        /\ isClosed c' = isClosed (core s)
        /\ forall name ps, pcapSessionMap (core s) !! name = Some ps ->
                           pcapSessionMap c' !! name = Some ps).
Proof.
  split.
  - intros protocol srcIP dstIP c'.
    pose proof (DialIP_oneInsert protocol srcIP dstIP s) as H.
    destruct (oneInsert_keeps _ _ H) as (_ & _ & ? & ? & ? & ? & ?). done.
  - intros ip protocol c'.
    pose proof (ListenIP_oneInsert ip protocol s) as H.
    destruct (oneInsert_keeps _ _ H) as (_ & _ & ? & ? & ? & ? & ?). done.
Qed.

(** *** The reaper's effect on the registry *)

Lemma reap_core (ps : ptr) (s : State) :
  core (st (reap ps s))
  = match sessions (world s) !! ps with
    | Some sess => withSessionMap (delete (key (params sess))) (core s)
    | None => core s
    end
  /\ world (st (reap ps s)) = world s.
Proof.
  unfold reap. rewrite bind_emit, bind_gets. simpl.
  now destruct (sessions (world s) !! ps).
Qed.

Lemma inService_DialIP protocol srcIP dstIP s :
  inService (core s) -> inService (core (st (DialIP protocol srcIP dstIP s))).
Proof.
  intros (H1 & H2 & H3 & H4).
  destruct (oneInsert_keeps _ _ (DialIP_oneInsert protocol srcIP dstIP s))
    as (_ & _ & ? & ? & ? & ? & _).
  unfold inService. repeat split; congruence.
Qed.

Lemma inService_ListenIP ip protocol s :
  inService (core s) -> inService (core (st (ListenIP ip protocol s))).
Proof.
  intros (H1 & H2 & H3 & H4).
  destruct (oneInsert_keeps _ _ (ListenIP_oneInsert ip protocol s))
    as (_ & _ & ? & ? & ? & ? & _).
  unfold inService. repeat split; congruence.
Qed.

Lemma inService_reap ps s :
  inService (core s) -> inService (core (st (reap ps s))).
Proof.
  intros H. rewrite (proj1 (reap_core ps s)).
  now destruct (sessions (world s) !! ps).
Qed.

Lemma inService_runOps (ops : list Op) (s : State) :
  inService (core s) -> inService (core (runOps ops s)).
Proof.
  revert s. induction ops as [|op ops IH]; intros s H; [exact H|].
  unfold runOps. simpl. apply IH. destruct op; simpl.
  - now apply inService_DialIP.
  - now apply inService_ListenIP.
  - rewrite (bind_ok (reap ps) _ s tt).
    + simpl. now apply inService_reap.
    + unfold reap. rewrite bind_emit, bind_gets. simpl.
      now destruct (sessions (world s) !! ps).
Qed.

(** *** The state [Close] leaves *)

Lemma announcing_none_keys (l : list ptr) (w : World) :
  announcing l w = [] -> announcedKeys l w = [].
Proof.
  revert w. induction l as [|ps l IH]; intros w; [reflexivity|]. simpl.
  destruct (announced (close ps w)); [discriminate|]. simpl. apply IH.
Qed.

(** X4. [Close] on a registry in service returns normally and leaves the
    flag set, both channels closed, the wait group at zero and the timeouts
    as they were.  Its own code removes nothing from the session map: the
    map it leaves is the one it found less the entries the reaper deleted
    in the meantime, which are those under the keys of the sessions that
    announced their closure while [Close] was closing them; every other
    entry is still there, and if no session announces, the map is exactly
    as it was. *)
Theorem Close_final_state (s : State) :
  inService (core s) ->
  let l := (rangeSessions (pcapSessionMap (core s))).*2 in
  let c' := core (st (Close s)) in
  res (Close s) = inr tt
  /\ isClosed c' = true
  /\ stopChan c' = ChanClosed
  /\ pcapSessionCloseSig c' = ChanClosed
  /\ wg c' = 0%nat
  /\ arpCacheTimeout c' = arpCacheTimeout (core s)
  /\ arpRequestTimeout c' = arpRequestTimeout (core s)
  /\ (forall name,
        pcapSessionMap c' !! name
        = if bool_decide (name ∈ announcedKeys l (world s)) then None
          else pcapSessionMap (core s) !! name)
  /\ (announcing l (world s) = [] -> pcapSessionMap c' = pcapSessionMap (core s)).
Proof.
  intros (Hflag & Hstop & Hsig & Hwg) l c'. subst c'.
  rewrite (Close_when_open _ Hflag).
  set (s0 := setCore (withIsClosed true) s).
  destruct (shutdown_run s0 Hstop Hsig Hwg) as (Hr & _ & Hc & _).
  destruct (closeSessions_run l s0 0 Hsig Hwg) as (_ & _ & Hcc & _).
  change (rangeSessions (pcapSessionMap (core s0))) with
    (rangeSessions (pcapSessionMap (core s))) in *. fold l in Hc.
  rewrite Hcc in Hc. rewrite Hr, Hc. simpl.
  repeat split.
  - intros name. apply deleteAll_lookup.
  - intros Hnone. now rewrite (announcing_none_keys _ _ Hnone).
Qed.

(** X5. A registry made by [NewRawSocketCore] and then used for any
    sequence of dials, listens and reaped session closures, whatever their
    outcomes, is still in service, and [Close] on it returns normally: no
    close of a closed channel, no wait that cannot end.  Afterwards the
    wait group is at zero and both channels are closed. *)
Theorem Close_completes_after_any_use (cacheTimeout requestTimeout : Z) (w : World)
    (ops : list Op) :
  let s := runOps ops (NewRawSocketCore cacheTimeout requestTimeout w) in
  inService (core s)
  /\ res (Close s) = inr tt
  /\ wg (core (st (Close s))) = 0%nat
  /\ stopChan (core (st (Close s))) = ChanClosed
  /\ pcapSessionCloseSig (core (st (Close s))) = ChanClosed.
Proof.
  intros s.
  assert (H : inService (core s)) by (apply inService_runOps; done).
  split; [exact H|]. destruct H as (Hflag & Hstop & Hsig & Hwg).
  rewrite (Close_when_open _ Hflag).
  destruct (shutdown_run (setCore (withIsClosed true) s) Hstop Hsig Hwg)
    as (Hr & _ & Hc & _).
  rewrite Hr, Hc. done.
Qed.

End FrameFacts.

(** ** Choosing and reusing a session *)

Section ChoiceFacts.

Context {host : Host} {layer : SessionLayer}.


(** The session [DialIP] settles on, by cases on the map. *)
Lemma DialIP_session_cases (srcIP : option IP) (dstIP : IP) (s : State)
    (src : IP) (ifc : Interface) (gw : option IP) :
  res (DialIP_route srcIP dstIP s) = inr (src, ifc, gw) ->
  let o := DialIP_session srcIP dstIP s in
  let n := newPcapSession {| key := Name ifc; iface := ifc |}
             {| cfgArpRequestTimeout := arpRequestTimeout (core s) |} (world s) in
  match pcapSessionMap (core s) !! Name ifc with
  | Some ps => res o = inr (src, ps) /\ st o = s /\ constructed (evs o) = []
  | None =>
      match res n with
      | inl e => res o = inl e /\ core (st o) = core s
      | inr ps =>
          res o = inr (src, ps)
          /\ st o = mkState (withSessionMap <[Name ifc := ps]> (core s)) (st n)
          /\ constructed (evs o) = [Name ifc]
      end
  end.
Proof.
  intros Hroute o n. subst o. unfold DialIP_session.
  rewrite (bind_ok _ _ _ _ Hroute). rewrite DialIP_route_state.
  assert (Hc : constructed (evs (DialIP_route srcIP dstIP s)) = []).
  { unfold DialIP_route, bind, emit, ret, orWrap, lift_result.
    destruct srcIP as [a|]; simpl.
    - now destruct (findInterfaceByIP a).
    - now destruct (GetLocalIP dstIP) as [|[[? ?] ?]]. }
  cbn beta iota. rewrite (bind_eq _ _ _ _ _ _ (lookupSession_eq (Name ifc) s)).
  destruct (pcapSessionMap (core s) !! Name ifc) as [ps|]; simpl.
  - unfold constructed in *. rewrite omap_app, Hc. done.
  - unfold bind. rewrite constructSession_eq. fold n.
    destruct n as [[e|ps] w t]; simpl; [done|].
    repeat split. unfold constructed in *. rewrite omap_app, Hc. simpl.
    f_equal. rewrite omap_app. simpl. rewrite app_nil_r.
    induction t as [|x t IH]; [reflexivity | exact IH].
Qed.

(** The session [ListenIP] settles on, by cases on the map. *)
Lemma ListenIP_session_cases (ip : IP) (s : State) (ifc : Interface) :
  findInterfaceByIP ip = inr ifc ->
  let o := ListenIP_session ip s in
  let n := newPcapSession {| key := Name ifc; iface := ifc |}
             {| cfgArpRequestTimeout := arpRequestTimeout (core s) |} (world s) in
  match pcapSessionMap (core s) !! Name ifc with
  | Some ps => o = mkOut (inr ps) s [EvFindInterfaceByIP ip; EvLock; EvUnlock]
  | None =>
      match res n with
      | inl e => res o = inl (ErrCreateSession e) /\ core (st o) = core s
      | inr ps =>
          res o = inr ps
          /\ st o = mkState (withSessionMap <[Name ifc := ps]> (core s)) (st n)
          /\ constructed (evs o) = [Name ifc]
      end
  end.
Proof.
  intros Hifc o n. subst o. go_unfold. rewrite Hifc. simpl.
  destruct (pcapSessionMap (core s) !! Name ifc) as [ps|]; simpl; [reflexivity|].
  subst n. layer_call (newPcapSession {| key := Name ifc; iface := ifc |}
                  {| cfgArpRequestTimeout := arpRequestTimeout (core s) |} (world s));
    [done|].
  repeat split. unfold constructed. simpl. f_equal.
  rewrite omap_app. simpl. rewrite app_nil_r.
  induction t as [|x t IH]; [reflexivity | exact IH].
Qed.

Lemma constructed_app (t1 t2 : list Event) :
  constructed (t1 ++ t2) = constructed t1 ++ constructed t2.
Proof. apply omap_app. Qed.





End ChoiceFacts.

Section ReuseFacts.

Context {host : Host} {layer : SessionLayer}.

Lemma DialIP_core_after_session (protocol : IPProtocol) (srcIP : option IP) (dstIP : IP)
    (s : State) (src : IP) (ps : ptr) :
  res (DialIP_session srcIP dstIP s) = inr (src, ps) ->
  core (st (DialIP protocol srcIP dstIP s)) = core (st (DialIP_session srcIP dstIP s)).
Proof.
  intros H. rewrite (DialIP_after_session protocol _ _ _ _ _ H).
  now destruct (res (dialIP ps src dstIP protocol _)).
Qed.

Lemma ListenIP_core_after_session (ip : IP) (protocol : IPProtocol) (s : State) (ps : ptr) :
  res (ListenIP_session ip s) = inr ps ->
  core (st (ListenIP ip protocol s)) = core (st (ListenIP_session ip s)).
Proof. intros H. now rewrite (ListenIP_after_session ip protocol s ps H). Qed.

(** X7. A session is made once per interface name and then shared.  Once
    the map holds a session under an interface's name, [ListenIP] for an
    address on an interface of that name and [DialIP] routed through one
    settle on that session, construct nothing and leave the registry and
    the world untouched while doing so.  This is so in particular in the
    state a call of [DialIP] leaves, for the session it settled on, whether
    or not the session's own [dialIP] then succeeded. *)
Theorem session_shared_by_later_calls (s : State) (name : string) (ps : ptr) :
  (pcapSessionMap (core s) !! name = Some ps ->
   (forall ip ifc,
      findInterfaceByIP ip = inr ifc -> Name ifc = name ->
      ListenIP_session ip s = mkOut (inr ps) s [EvFindInterfaceByIP ip; EvLock; EvUnlock])
   /\ (forall srcIP dstIP src ifc gw,
         res (DialIP_route srcIP dstIP s) = inr (src, ifc, gw) -> Name ifc = name ->
         res (DialIP_session srcIP dstIP s) = inr (src, ps)
         /\ st (DialIP_session srcIP dstIP s) = s
         /\ constructed (evs (DialIP_session srcIP dstIP s)) = []))
  /\ (forall protocol srcIP dstIP src ifc gw,
        res (DialIP_route srcIP dstIP s) = inr (src, ifc, gw) -> Name ifc = name ->
        res (DialIP_session srcIP dstIP s) = inr (src, ps) ->
        pcapSessionMap (core (st (DialIP protocol srcIP dstIP s))) !! name = Some ps).
Proof.
  split.
  - intros Hm. split.
    + intros ip ifc Hifc <-.
      pose proof (ListenIP_session_cases ip s ifc Hifc) as H. simpl in H.
      now rewrite Hm in H.
    + intros srcIP dstIP src ifc gw Hroute <-.
      pose proof (DialIP_session_cases srcIP dstIP s src ifc gw Hroute) as H.
      simpl in H. now rewrite Hm in H.
  - intros protocol srcIP dstIP src ifc gw Hroute <- Hsess.
    rewrite (DialIP_core_after_session protocol _ _ _ _ _ Hsess).
    pose proof (DialIP_session_cases srcIP dstIP s src ifc gw Hroute) as H.
    simpl in H.
    destruct (pcapSessionMap (core s) !! Name ifc) as [p|] eqn:Hm.
    + destruct H as (Hres & Hst & _). rewrite Hst. congruence.
    + destruct (res (newPcapSession _ _ (world s))) as [e|p].
      * destruct H as [Hres _]. congruence.
      * destruct H as (Hres & Hst & _). rewrite Hst. simpl.
        rewrite lookup_insert_eq. congruence.
Qed.

(** X8. Lookup failures end the call at once.  Without a source address,
    an error of [GetLocalIP] is returned by [DialIP] as it is; an error of
    [findInterfaceByIP] is returned by [ListenIP] wrapped as "interface not
    found for IP".  In both cases the registry and the world are untouched
    and the lookup is all that was done: no lock taken, no session
    constructed. *)
Theorem lookup_failure_ends_call (protocol : IPProtocol) (s : State) (e : Error) :
  (forall dstIP,
     GetLocalIP dstIP = inl e ->
     DialIP protocol None dstIP s = mkOut (inl e) s [EvGetLocalIP dstIP])
  /\ (forall ip,
        findInterfaceByIP ip = inl e ->
        ListenIP ip protocol s
        = mkOut (inl (ErrInterfaceNotFound e)) s [EvFindInterfaceByIP ip]).
Proof.
  split.
  - intros dstIP H. go_unfold. now rewrite H.
  - intros ip H. go_unfold. now rewrite H.
Qed.

(** X9. No rollback when the session fails.  If the interface had no
    session, [newPcapSession] succeeded and then the session's [dialIP]
    (or [listenIP]) failed, the call returns the error ([ListenIP] wraps it
    as "rawSocketCore.ListenIP") but the session just constructed stays in
    the map under the interface's name, and no flow was stored by the
    registry. *)
Theorem session_kept_when_delegate_fails (s : State) (ifc : Interface) (ps : ptr) (e : Error) :
  pcapSessionMap (core s) !! Name ifc = None ->
  let n := newPcapSession {| key := Name ifc; iface := ifc |}
             {| cfgArpRequestTimeout := arpRequestTimeout (core s) |} (world s) in
  res n = inr ps ->
  (forall protocol srcIP dstIP src gw,
     res (DialIP_route srcIP dstIP s) = inr (src, ifc, gw) ->
     res (dialIP ps src dstIP protocol (st n)) = inl e ->
     res (DialIP protocol srcIP dstIP s) = inl e
     /\ pcapSessionMap (core (st (DialIP protocol srcIP dstIP s))) !! Name ifc = Some ps
     /\ forall p k c, EvStore p k c ∉ evs (DialIP protocol srcIP dstIP s))
  /\ (forall ip protocol,
        findInterfaceByIP ip = inr ifc ->
        res (listenIP ps ip protocol (st n)) = inl e ->
        res (ListenIP ip protocol s) = inl (ErrListenIP e)
        /\ pcapSessionMap (core (st (ListenIP ip protocol s))) !! Name ifc = Some ps).
Proof.
  intros Hm n Hn. split.
  - intros protocol srcIP dstIP src gw Hroute Hd.
    pose proof (DialIP_session_cases srcIP dstIP s src ifc gw Hroute) as H.
    simpl in H. rewrite Hm in H. fold n in H. rewrite Hn in H.
    destruct H as (Hres & Hst & _).
    rewrite (DialIP_after_session protocol _ _ _ _ _ Hres). rewrite Hst. simpl.
    rewrite Hd. simpl. repeat split; [apply lookup_insert_eq|].
    intros p k c. apply noStore_not_elem. unfold noStore.
    apply Forall_app_2; [apply DialIP_session_noStore|]. trace_free.
  - intros ip protocol Hifc Hl.
    pose proof (ListenIP_session_cases ip s ifc Hifc) as H.
    simpl in H. rewrite Hm in H. fold n in H. rewrite Hn in H.
    destruct H as (Hres & Hst & _).
    rewrite (ListenIP_after_session ip protocol s ps Hres). rewrite Hst. simpl.
    rewrite Hl. split; [reflexivity | apply lookup_insert_eq].
Qed.

End ReuseFacts.

(** ** The gateway *)

(** X10. [DialIP] uses the gateway [GetLocalIP] returns for its log line
    and for nothing else.  On two hosts whose route resolvers give the
    same source address and interface for a destination but different
    gateways, [DialIP] without a source address returns the same result,
    leaves the same state and, log lines apart, performs the same effects:
    the session is chosen and dialled without regard to the gateway. *)
Theorem DialIP_gateway_only_logged (h1 h2 : Host) (layer : SessionLayer)
    (protocol : IPProtocol) (dstIP : IP) (s : State)
    (src : IP) (ifc : Interface) (g1 g2 : option IP) :
  @GetLocalIP h1 dstIP = inr (src, ifc, g1) ->
  @GetLocalIP h2 dstIP = inr (src, ifc, g2) ->
  let o1 := @DialIP h1 layer protocol None dstIP s in
  let o2 := @DialIP h2 layer protocol None dstIP s in
  res o1 = res o2
  /\ st o1 = st o2
  /\ withoutLogs (evs o1) = withoutLogs (evs o2)
  /\ In (EvLog (LogRoute (Name ifc) g1 src)) (evs o1).
Proof.
  intros H1 H2 o1 o2. subst o1 o2. go_unfold. rewrite H1, H2. simpl.
  destruct (pcapSessionMap (core s) !! Name ifc) as [ps|]; simpl.
  - layer_call (dialIP ps src dstIP protocol (world s)); repeat split; auto.
  - layer_call (newPcapSession {| key := Name ifc; iface := ifc |}
                  {| cfgArpRequestTimeout := arpRequestTimeout (core s) |} (world s));
      [repeat split; auto|].
    layer_call (dialIP r src dstIP protocol w); repeat split; auto.
Qed.

(** ** The reaper *)

Section ReaperFacts.

Lemma handlePcapSessionClose_closed (closed : list ptr) (rest : list Signal) (s : State) :
  res (handlePcapSessionClose ((SigSessionClosed <$> closed) ++ rest) s)
  = res (handlePcapSessionClose rest (reapAll closed s))
  /\ st (handlePcapSessionClose ((SigSessionClosed <$> closed) ++ rest) s)
     = st (handlePcapSessionClose rest (reapAll closed s)).
Proof.
  revert s. induction closed as [|ps closed IH]; intros s; [done|].
  simpl. rewrite (bind_eq _ _ _ _ _ _ (reap_eq ps s)). simpl.
  unfold reapAll in *. simpl. rewrite reap_eq. simpl. apply IH.
Qed.

Lemma reapAll_state (closed : list ptr) (s : State) :
  world (reapAll closed s) = world s
  /\ wg (core (reapAll closed s)) = wg (core s)
  /\ isClosed (core (reapAll closed s)) = isClosed (core s)
  /\ stopChan (core (reapAll closed s)) = stopChan (core s)
  /\ pcapSessionCloseSig (core (reapAll closed s)) = pcapSessionCloseSig (core s)
  /\ forall name,
       pcapSessionMap (core (reapAll closed s)) !! name
       = if bool_decide (name ∈ reapedKeys (world s) closed) then None
         else pcapSessionMap (core s) !! name.
Proof.
  revert s. induction closed as [|ps closed IH]; intros s; [repeat split|].
  change (reapAll (ps :: closed) s) with (reapAll closed (st (reap ps s))).
  destruct (IH (st (reap ps s))) as (Hw & H1 & H2 & H3 & H4 & Hm).
  destruct (reap_state ps s) as (Rw & R1 & R2 & R3 & R4 & Rm).
  rewrite Hw, H1, H2, H3, H4. repeat split; try assumption.
  intros name. rewrite Hm, Rw, Rm.
  unfold reapedKeys. simpl. fold (reapedKeys (world s) closed).
  destruct (sessions (world s) !! ps) as [sess|]; simpl; [|reflexivity].
  destruct (decide (name = key (params sess))) as [->|Hne].
  - rewrite lookup_delete_eq.
    rewrite (bool_decide_eq_true_2 (key (params sess) ∈ key (params sess) :: _))
      by apply list_elem_of_here.
    now destruct (bool_decide _).
  - rewrite lookup_delete_ne by congruence.
    destruct (bool_decide (name ∈ reapedKeys (world s) closed)) eqn:Hin.
    + apply bool_decide_eq_true_1 in Hin.
      rewrite bool_decide_eq_true_2; [reflexivity | now apply list_elem_of_further].
    + apply bool_decide_eq_false_1 in Hin.
      rewrite bool_decide_eq_false_2; [reflexivity|].
      intros [?|?]%elem_of_cons; [congruence | contradiction].
Qed.

Lemma wgDone_state (s : State) :
  world (st (wgDone s)) = world s
  /\ isClosed (core (st (wgDone s))) = isClosed (core s)
  /\ stopChan (core (st (wgDone s))) = stopChan (core s)
  /\ pcapSessionCloseSig (core (st (wgDone s))) = pcapSessionCloseSig (core s)
  /\ pcapSessionMap (core (st (wgDone s))) = pcapSessionMap (core s)
  /\ match wg (core s) with
     | S n => res (wgDone s) = inr tt /\ wg (core (st (wgDone s))) = n
     | O => res (wgDone s) = inl PanicNegativeWaitGroup
            /\ wg (core (st (wgDone s))) = 0%nat
     end.
Proof.
  unfold wgDone. rewrite bind_gets.
  destruct (wg (core s)) eqn:H; simpl; rewrite ?H; done.
Qed.

(** X11. The reaper, given the closures of a list of sessions and then
    possibly a stop.  Afterwards the map holds nothing under the key of any
    of those sessions (whichever session the map held there: the delete is
    by key, not by session) and every other entry is as before; the world,
    the closed flag and both channels are untouched.  Without a stop it
    returns nothing yet and the wait group is unchanged (the reaper is still
    selecting).  At the first stop it calls [Done] and returns, and the
    signals after the stop are never handled: the wait group goes down by
    one, and if it was at zero already the [Done] panics. *)
Theorem reaper_deletes_closed_sessions (closed : list ptr) (s : State) :
  let keys := reapedKeys (world s) closed in
  (let o := handlePcapSessionClose (SigSessionClosed <$> closed) s in
   res o = inr tt
   /\ world (st o) = world s
   /\ wg (core (st o)) = wg (core s)
   /\ isClosed (core (st o)) = isClosed (core s)
   /\ stopChan (core (st o)) = stopChan (core s)
   /\ pcapSessionCloseSig (core (st o)) = pcapSessionCloseSig (core s)
   /\ forall name,
        pcapSessionMap (core (st o)) !! name
        = if bool_decide (name ∈ keys) then None else pcapSessionMap (core s) !! name)
  /\ (forall rest,
        let o := handlePcapSessionClose ((SigSessionClosed <$> closed) ++ SigStop :: rest) s in
        world (st o) = world s
        /\ isClosed (core (st o)) = isClosed (core s)
        /\ stopChan (core (st o)) = stopChan (core s)
        /\ pcapSessionCloseSig (core (st o)) = pcapSessionCloseSig (core s)
        /\ (forall name,
              pcapSessionMap (core (st o)) !! name
              = if bool_decide (name ∈ keys) then None
                else pcapSessionMap (core s) !! name)
        /\ match wg (core s) with
           | S n => res o = inr tt /\ wg (core (st o)) = n
           | O => res o = inl PanicNegativeWaitGroup /\ wg (core (st o)) = 0%nat
           end).
Proof.
  intros keys. destruct (reapAll_state closed s) as (Hw & H1 & H2 & H3 & H4 & Hm).
  split.
  - intros o. subst o.
    destruct (handlePcapSessionClose_closed closed [] s) as [Hr Hs].
    rewrite app_nil_r in Hr, Hs. rewrite Hr, Hs. simpl. done.
  - intros rest o. subst o.
    destruct (handlePcapSessionClose_closed closed (SigStop :: rest) s) as [Hr Hs].
    rewrite Hr, Hs. rewrite handlePcapSessionClose_stop.
    destruct (wgDone_state (reapAll closed s)) as (Dw & D2 & D3 & D4 & Dm & Dwg).
    rewrite Dw, D2, D3, D4, Dm, Hw, H2, H3, H4. rewrite H1 in Dwg.
    repeat split; try assumption.
Qed.

End ReaperFacts.

(** ** Callers that overlap *)

Section OverlapFacts.

Context {host : Host} {layer : SessionLayer} {order : MapOrder}.






Lemma interleave_step (i : nat) (schedule : list nat) (threads : list Thread)
    (s : State) (t : Thread) :
  threads !! i = Some t ->
  interleave (i :: schedule) threads s
  = let '(t1, s1, e1) := step t s in
    let '(ts, s2, e2) := interleave schedule (<[i := t1]> threads) s1 in
    (ts, s2, e1 ++ e2).
Proof. intros H. simpl. now rewrite H. Qed.

Lemma step_lookup (c : Call) (srcIP : IP) (ifc : Interface) (s : State) :
  step (TLookup c srcIP ifc) s
  = (match pcapSessionMap (core s) !! Name ifc with
     | Some ps => TDelegate c srcIP ps
     | None => TConstruct c srcIP ifc
     end, s, [EvLock; EvUnlock]).
Proof. reflexivity. Qed.

Lemma step_construct_ok (c : Call) (srcIP : IP) (ifc : Interface) (s : State) (ps : ptr) :
  res (constructSession ifc s) = inr ps ->
  step (TConstruct c srcIP ifc) s
  = (TInsert c srcIP ifc ps, st (constructSession ifc s), evs (constructSession ifc s)).
Proof.
  intros H. destruct c; unfold step, advance, orWrap;
    destruct (constructSession ifc s) as [r s1 t1]; cbn [res st evs] in *; now subst r.
Qed.

Lemma step_insert (c : Call) (srcIP : IP) (ifc : Interface) (ps : ptr) (s : State) :
  step (TInsert c srcIP ifc ps) s
  = (TDelegate c srcIP ps, setCore (withSessionMap <[Name ifc := ps]>) s,
     [EvLock; EvUnlock]).
Proof. reflexivity. Qed.

Lemma constructSession_constructed (ifc : Interface) (s : State) :
  constructed (evs (constructSession ifc s)) = [Name ifc]
  /\ core (st (constructSession ifc s)) = core s.
Proof.
  rewrite constructSession_eq. simpl. split; [|reflexivity].
  unfold constructed. simpl. f_equal.
  induction (evs _) as [|x t IH]; [reflexivity | exact IH].
Qed.

(** X13. Two callers, dialling or listening, that both need a session for
    the same interface name while the map has none: if each reads the map
    before the other has inserted, both call [newPcapSession], and when
    both constructions succeed both insert; the map ends up holding the
    session inserted last, and the session inserted first is held by its
    caller only.  Both callers go on to use their own session. *)
Theorem overlapping_callers_both_construct (s : State) (cA cB : Call) (srcA srcB : IP)
    (ifcA ifcB : Interface) (psA psB : ptr) :
  Name ifcA = Name ifcB ->
  pcapSessionMap (core s) !! Name ifcA = None ->
  let oA := constructSession ifcA s in
  let oB := constructSession ifcB (st oA) in
  res oA = inr psA ->
  res oB = inr psB ->
  let r := interleave [0; 1; 0; 1; 0; 1]%nat
                      [TLookup cA srcA ifcA; TLookup cB srcB ifcB] s in
  r.1.1 = [TDelegate cA srcA psA; TDelegate cB srcB psB]
  /\ constructed r.2 = [Name ifcA; Name ifcB]
  /\ pcapSessionMap (core r.1.2) !! Name ifcA = Some psB
  /\ world r.1.2 = world (st oB).
Proof.
  intros Hname Hm oA oB HA HB r. subst r.
  destruct (constructSession_constructed ifcA s) as [HcA HkA].
  destruct (constructSession_constructed ifcB (st oA)) as [HcB HkB].
  fold oA in HcA, HkA. fold oB in HcB, HkB.
  erewrite interleave_step by reflexivity; rewrite step_lookup, Hm. cbn [insert list_insert].
  erewrite interleave_step by reflexivity; rewrite step_lookup, <- Hname, Hm.
  cbn [insert list_insert].
  erewrite interleave_step by reflexivity; rewrite (step_construct_ok _ _ _ _ _ HA).
  fold oA. cbn [insert list_insert].
  erewrite interleave_step by reflexivity; rewrite (step_construct_ok _ _ _ _ _ HB).
  fold oB. cbn [insert list_insert].
  erewrite interleave_step by reflexivity; rewrite step_insert. cbn [insert list_insert].
  erewrite interleave_step by reflexivity; rewrite step_insert. cbn [insert list_insert].
  clearbody oB. clearbody oA. simpl. repeat split.
  - rewrite constructed_app, HcA. simpl.
    now rewrite constructed_app, HcB, <- Hname.
  - rewrite Hname. apply lookup_insert_eq.
Qed.

End OverlapFacts.

(** ** What ListenIP hands to the session *)

Section ListenFacts.

Context {host : Host} {layer : SessionLayer}.

Lemma listened_session (t : list SessionEvent) : listened (EvSession <$> t) = [].
Proof. induction t as [|x t IH]; [reflexivity | exact IH]. Qed.

Lemma ListenIP_session_listened (ip : IP) (s : State) :
  listened (evs (ListenIP_session ip s)) = [].
Proof.
  go_unfold. destruct (findInterfaceByIP ip) as [e|ifc]; simpl; [done|].
  destruct (pcapSessionMap (core s) !! Name ifc); simpl; [done|].
  layer_call (newPcapSession {| key := Name ifc; iface := ifc |}
                {| cfgArpRequestTimeout := arpRequestTimeout (core s) |} (world s));
    unfold listened; simpl; rewrite ?omap_app; simpl;
    fold (listened (EvSession <$> t)); now rewrite listened_session.
Qed.

(** X14. What [ListenIP] hands to the session.  When [ListenIP] settles on
    a session, that session is the one the map then holds under the name of
    the interface that owns the address; the session's [listenIP] is called
    exactly once, on that session, with the address and the protocol as
    given; and [ListenIP] returns the session's connection unchanged, or its
    error wrapped as "rawSocketCore.ListenIP". *)
Theorem ListenIP_hands_over (ip : IP) (protocol : IPProtocol) (s : State) (ps : ptr) :
  res (ListenIP_session ip s) = inr ps ->
  let o := ListenIP ip protocol s in
  let o2 := listenIP ps ip protocol (world (st (ListenIP_session ip s))) in
  (exists ifc, findInterfaceByIP ip = inr ifc
               /\ pcapSessionMap (core (st o)) !! Name ifc = Some ps)
  /\ listened (evs o) = [(ps, ip, protocol)]
  /\ res o = match res o2 with inl e => inl (ErrListenIP e) | inr conn => inr conn end.
Proof.
  intros Hsess o o2. subst o.
  rewrite (ListenIP_after_session ip protocol s ps Hsess). fold o2. simpl.
  split; [|split; [|reflexivity]].
  - destruct (findInterfaceByIP ip) as [e|ifc] eqn:Hifc.
    { revert Hsess. go_unfold. rewrite Hifc. discriminate. }
    exists ifc. split; [reflexivity|].
    pose proof (ListenIP_session_cases ip s ifc Hifc) as H. simpl in H.
    destruct (pcapSessionMap (core s) !! Name ifc) as [p|] eqn:Hm.
    + rewrite H in Hsess |- *. simpl in *. congruence.
    + destruct (res (newPcapSession _ _ (world s))) as [e|p].
      * destruct H as [Hres _]. congruence.
      * destruct H as (Hres & Hst & _). rewrite Hst. simpl.
        rewrite lookup_insert_eq. congruence.
  - unfold listened. rewrite omap_app.
    fold (listened (evs (ListenIP_session ip s))).
    rewrite ListenIP_session_listened. simpl. f_equal.
    fold (listened (EvSession <$> evs o2)). apply listened_session.
Qed.

End ListenFacts.

(** ** The store and the other sessions *)

Section StoreFacts.

Context {host : Host} {layer : SessionLayer}.

Lemma Store_frame (ps : ptr) (k : FlowKey) (conn : RawIPConn) (w : World) :
  (forall p, p <> ps -> sessions (Store ps k conn w) !! p = sessions w !! p)
  /\ arpCache (Store ps k conn w) = arpCache w
  /\ nextSession (Store ps k conn w) = nextSession w
  /\ nextConn (Store ps k conn w) = nextConn w
  /\ dom (sessions (Store ps k conn w)) = dom (sessions w).
Proof.
  unfold Store, withSessions. simpl. repeat split.
  - intros p Hp. apply lookup_alter_ne. congruence.
  - apply dom_alter_L.
Qed.

(** X15. The [Store] that ends a successful [DialIP] writes one slot of one
    table: every other session object is exactly as the session's [dialIP]
    left it, no session object appears or disappears, the resolution cache
    is untouched, and in the table written every key but the connection's
    keeps its flow; the written session keeps its parameters, configuration
    and handle. *)
Theorem DialIP_store_touches_one_slot (protocol : IPProtocol) (srcIP : option IP)
    (dstIP : IP) (s : State) (src : IP) (ps : ptr) (conn : RawIPConn) :
  res (DialIP_session srcIP dstIP s) = inr (src, ps) ->
  let o2 := dialIP ps src dstIP protocol (world (st (DialIP_session srcIP dstIP s))) in
  res o2 = inr conn ->
  let w := world (st (DialIP protocol srcIP dstIP s)) in
  (forall p, p <> ps -> sessions w !! p = sessions (st o2) !! p)
  /\ dom (sessions w) = dom (sessions (st o2))
  /\ arpCache w = arpCache (st o2)
  /\ (forall sess, sessions (st o2) !! ps = Some sess ->
        exists sess',
          sessions w !! ps = Some sess'
          /\ params sess' = params sess
          /\ config sess' = config sess
          /\ handleOpen sess' = handleOpen sess
          /\ forall k, k <> getKey conn ->
                       rawIPConnMap sess' !! k = rawIPConnMap sess !! k).
Proof.
  intros Hsess o2 Hconn w. subst w.
  rewrite (DialIP_after_session protocol _ _ _ _ _ Hsess). fold o2. rewrite Hconn.
  simpl. destruct (Store_frame ps (getKey conn) conn (st o2)) as (H1 & H2 & _ & _ & H5).
  repeat split; try assumption.
  intros sess Hs. eexists. split; [apply (Store_lookup _ _ _ _ _ Hs)|].
  simpl. repeat split. intros k Hk. apply lookup_insert_ne. congruence.
Qed.

End StoreFacts.

(** ** The further properties on the example network *)

Section MoreRuns.

Import Example.

Lemma NewRawSocketCore_timeouts_witness :
  (arpCacheTimeout (core fresh) = 60 * 1000000000
   /\ arpRequestTimeout (core fresh) = 5 * 1000000000
   /\ ttl (arpCache (world fresh)) = 60 * 1000000000)
  /\ arpRequestTimeout (core (NewRawSocketCore 60 9223372037 boot)) < 0.
Proof.
  split.
  - apply (proj1 (NewRawSocketCore_timeouts 60 5 boot)); lia.
  - apply (proj2 (NewRawSocketCore_timeouts 60 9223372037 boot)); lia.
Defined.

(** A trace that constructs a session under the lock breaks the
    discipline. *)
Lemma construction_under_lock_rejected :
  lockDiscipline false [EvLock; EvNewPcapSession "en0"; EvUnlock] = false
  /\ lockDiscipline false [EvLock; EvLock; EvUnlock; EvUnlock] = false
  /\ lockDiscipline false [EvLock] = false.
Proof. repeat split. Qed.

(** The registry holding the open session of [en0]: the session announces
    its closure, so the reaper has taken [en0] out of the map by the time
    [Close] returns. *)
Lemma Close_final_state_witness :
  res (@Close layer order busy) = inr tt
  /\ isClosed (core (st (@Close layer order busy))) = true
  /\ stopChan (core (st (@Close layer order busy))) = ChanClosed
  /\ pcapSessionCloseSig (core (st (@Close layer order busy))) = ChanClosed
  /\ wg (core (st (@Close layer order busy))) = 0%nat
  /\ pcapSessionMap (core busy) !! "en0" = Some 0%nat
  /\ pcapSessionMap (core (st (@Close layer order busy))) !! "en0" = None.
Proof.
  destruct (@Close_final_state layer order busy)
    as (H1 & H2 & H3 & H4 & H5 & _ & _ & H8 & _);
    [vm_compute; repeat split|].
  split; [exact H1|]. split; [exact H2|]. split; [exact H3|]. split; [exact H4|].
  split; [exact H5|]. split; [vm_compute; reflexivity|].
  rewrite (H8 "en0"). vm_compute. reflexivity.
Defined.


Lemma session_shared_by_later_calls_witness :
  @ListenIP_session host layer localAddr busy
  = mkOut (inr 0%nat) busy [EvFindInterfaceByIP localAddr; EvLock; EvUnlock].
Proof.
  destruct (@session_shared_by_later_calls host layer busy "en0" 0%nat) as [H _].
  destruct H as [Hlisten _]; [vm_compute; reflexivity|].
  apply (Hlisten localAddr en0); vm_compute; reflexivity.
Defined.

Lemma lookup_failure_ends_call_witness :
  @DialIP host layer icmp None malformed fresh
  = mkOut (inl (External "no route to host")) fresh [EvGetLocalIP malformed].
Proof.
  apply (proj1 (@lookup_failure_ends_call host layer icmp fresh
                  (External "no route to host"))).
  vm_compute. reflexivity.
Defined.

(** Dialling the silent neighbour on the fresh registry: the resolution
    times out, and the session made for the call stays registered. *)
Lemma session_kept_when_delegate_fails_witness :
  res (@DialIP host layer icmp None silent fresh) = inl (AddressResolutionTimeout silent)
  /\ pcapSessionMap (core (st (@DialIP host layer icmp None silent fresh))) !! "en0"
     = Some 0%nat.
Proof.
  destruct (@session_kept_when_delegate_fails host layer fresh en0 0%nat
              (AddressResolutionTimeout silent)) as [Hdial _];
    [vm_compute; reflexivity ..|].
  destruct (Hdial icmp None silent localAddr None) as (H1 & H2 & _);
    [vm_compute; reflexivity ..|].
  split; [exact H1 | exact H2].
Defined.

Lemma DialIP_gateway_only_logged_witness :
  res (@DialIP host layer icmp None remote fresh)
  = res (@DialIP hostOtherGateway layer icmp None remote fresh)
  /\ st (@DialIP host layer icmp None remote fresh)
     = st (@DialIP hostOtherGateway layer icmp None remote fresh)
  /\ withoutLogs (evs (@DialIP host layer icmp None remote fresh))
     = withoutLogs (evs (@DialIP hostOtherGateway layer icmp None remote fresh)).
Proof.
  destruct (@DialIP_gateway_only_logged host hostOtherGateway layer icmp remote fresh
              localAddr en0 (Some gateway) (Some otherGateway))
    as (H1 & H2 & H3 & _); [vm_compute; reflexivity ..|].
  split; [exact H1|]. split; [exact H2 | exact H3].
Defined.


(** A dial and a listen on [en0] that overlap on the fresh registry. *)
Lemma overlapping_callers_both_construct_witness :
  let r := @interleave host layer [0; 1; 0; 1; 0; 1]%nat
             [TLookup (CallDial icmp None remote) localAddr en0;
              TLookup (CallListen localAddr icmp) localAddr en0] fresh in
  r.1.1 = [TDelegate (CallDial icmp None remote) localAddr 0;
           TDelegate (CallListen localAddr icmp) localAddr 1]
  /\ constructed r.2 = ["en0"; "en0"]
  /\ pcapSessionMap (core r.1.2) !! "en0" = Some 1%nat.
Proof.
  destruct (@overlapping_callers_both_construct host layer fresh
              (CallDial icmp None remote) (CallListen localAddr icmp)
              localAddr localAddr en0 en0 0%nat 1%nat)
    as (H1 & H2 & H3 & _); [vm_compute; reflexivity ..|].
  split; [exact H1|]. split; [exact H2 | exact H3].
Defined.

Lemma ListenIP_hands_over_witness :
  listened (evs (@ListenIP host layer localAddr icmp fresh)) = [(0%nat, localAddr, icmp)]
  /\ res (@ListenIP host layer localAddr icmp fresh)
     = inr (mkConn 0 localAddr None icmp None 0).
Proof.
  destruct (@ListenIP_hands_over host layer localAddr icmp fresh 0%nat)
    as (_ & H1 & H2); [vm_compute; reflexivity|].
  split; [exact H1|]. rewrite H2. vm_compute. reflexivity.
Defined.

(** A second dial through the same session, to another destination,
    leaves the first dial's flow in its slot. *)
Lemma DialIP_store_touches_one_slot_witness :
  exists sess',
    sessions (world (st (@DialIP host layer icmp None neighbour busy))) !! 0%nat = Some sess'
    /\ rawIPConnMap sess' !! (localAddr, Some remote, icmp) = Some conn0.
Proof.
  destruct (@DialIP_store_touches_one_slot host layer icmp None neighbour busy
              localAddr 0%nat (mkConn 1 localAddr (Some neighbour) icmp (Some neighbourMAC) 0))
    as (_ & _ & _ & H); [vm_compute; reflexivity ..|].
  destruct (H (mkSession {| key := "en0"; iface := en0 |}
                         {| cfgArpRequestTimeout := 5000000000 |}
                         {[ (localAddr, Some remote, icmp) := conn0 ]} true))
    as (sess' & Hs & _ & _ & _ & Hk); [vm_compute; reflexivity|].
  exists sess'. split; [exact Hs|].
  rewrite Hk; [vm_compute; reflexivity | vm_compute; discriminate].
Defined.

End MoreRuns.
